(** * marp-vscode: theme cache, path normaliser, size presets, workspace proxy

    A shallow embedding of [Themes] (theme resolution and live-reload cache)
    and of the request handler of [createWorkspaceProxyServer], with the
    properties stated about them.

    The cache is an event-driven object: every [await] of the source is a
    point where the JavaScript event loop may run something else, so the
    asynchronous methods are cut at their [await]s and each piece is one
    uninterrupted step of a labelled transition system over an explicit
    world state. *)

From Stdlib Require Import ZArith Ascii.
From stdpp Require Import gmap strings list fin_maps pretty.

Local Open Scope Z_scope.
Local Open Scope nat_scope.

(** ** JavaScript string helpers *)

Module Js.

(** [s.startsWith(p)] *)
Definition startsWith (s p : string) : bool := String.prefix p s.

(** [s.split(c)] for a one-character separator [c]: never the empty list. *)
Fixpoint split (c : ascii) (s : string) : list string :=
  match s with
  | EmptyString => [EmptyString]
  | String a s' =>
      if Ascii.eqb a c then EmptyString :: split c s'
      else match split c s' with
           | x :: xs => String a x :: xs
           | [] => [String a EmptyString]
           end
  end.

(** [s.includes(c)] for a character [c]. *)
Fixpoint includes (s : string) (c : ascii) : bool :=
  match s with
  | EmptyString => false
  | String a s' => Ascii.eqb a c || includes s' c
  end.

(** [xs.join(sep)] *)
Fixpoint join (sep : string) (xs : list string) : string :=
  match xs with
  | [] => EmptyString
  | [x] => x
  | x :: rest => x +:+ sep +:+ join sep rest
  end.

(** The class [\s] restricted to the 7-bit characters:
    TAB, LF, VT, FF, CR and SPACE. *)
Definition isSpace (a : ascii) : bool :=
  let n := nat_of_ascii a in
  (Nat.leb 9 n && Nat.leb n 13) || Nat.eqb n 32.

(** [s.split(/\s+/)]: the separators are the maximal runs of white space;
    a leading or a trailing run leaves an empty first or last token.
    [inrun] tells that the previous character was white space. *)
Fixpoint splitSpaces_go (inrun : bool) (s : string) : list string :=
  match s with
  | EmptyString => [EmptyString]
  | String a s' =>
      if isSpace a then
        if inrun then splitSpaces_go true s'
        else EmptyString :: splitSpaces_go true s'
      else match splitSpaces_go false s' with
           | x :: xs => String a x :: xs
           | [] => [String a EmptyString]
           end
  end.

Definition splitSpaces (s : string) : list string := splitSpaces_go false s.

(** The class [\w]: letters, digits and the underscore. *)
Definition isWord (a : ascii) : bool :=
  let n := nat_of_ascii a in
  (Nat.leb 48 n && Nat.leb n 57) || (Nat.leb 65 n && Nat.leb n 90)
  || (Nat.leb 97 n && Nat.leb n 122) || Nat.eqb n 95.

End Js.

(** ** Node's [path] module, POSIX flavour

    [path.resolve] and [path.relative] belong to the platform, not to the
    extension.  They are written here on lists of segments, following the
    documented algorithm: the arguments are taken from the right until an
    absolute one is met (the working directory is the last resort), then
    empty and ["."] segments vanish and [".."] removes the segment before it,
    the root being its own parent. *)

Module Path.

Definition isAbsolute (p : string) : bool := Js.startsWith p "/".

Definition pushSegment (stack : list string) (seg : string) : list string :=
  if decide (seg = "") then stack
  else if decide (seg = ".") then stack
  else if decide (seg = "..") then tail stack
  else seg :: stack.

(** The stack is kept innermost segment first. *)
Definition normalizeSegments (segs : list string) : list string :=
  reverse (fold_left pushSegment segs []).

Definition ofSegments (segs : list string) : string :=
  "/" +:+ Js.join "/" segs.

Section WithCwd.
(** [process.cwd()], always absolute. *)
Variable cwd : string.

(** Segments of [path.resolve(p)]. *)
Definition segments (p : string) : list string :=
  normalizeSegments
    ((if isAbsolute p then [] else Js.split "/" cwd) ++ Js.split "/" p).

(** Segments of [path.resolve(from, to)]. *)
Definition resolveSegments (from to : string) : list string :=
  normalizeSegments
    ((if isAbsolute to then []
      else (if isAbsolute from then [] else Js.split "/" cwd)
             ++ Js.split "/" from)
       ++ Js.split "/" to).

(** [path.resolve(from, to)] *)
Definition resolve (from to : string) : string :=
  ofSegments (resolveSegments from to).

(** A segment as [path.resolve] leaves it: a name that is neither empty
    nor one of the two special names and that holds no slash. *)
Definition properSegment (seg : string) : Prop :=
  seg ≠ "" /\ seg ≠ "." /\ seg ≠ ".." /\ Js.includes seg "/" = false.

(** Drops the leading segments two paths share. *)
Fixpoint stripCommon (a b : list string) : list string * list string :=
  match a, b with
  | x :: a', y :: b' =>
      if decide (x = y) then stripCommon a' b' else (a, b)
  | _, _ => (a, b)
  end.

(** [path.relative(from, to)]: one [".."] for each segment of [from]
    below the common ancestor, then what is left of [to]. *)
Definition relative (from to : string) : string :=
  let '(up, down) := stripCommon (segments from) (segments to) in
  Js.join "/" (replicate (length up) ".." ++ down).

(** [p] is the directory [base] or lies below it: the segments of
    [base] are the first segments of [p]. *)
Definition within (base p : string) : Prop :=
  segments base `prefix_of` segments p.

End WithCwd.

End Path.

(** ** The editor's [Uri] *)

Record Uri := mkUri {
  scheme : string;
  authority : string;
  uriPath : string;
  query : string;
  fragment : string
}.

Definition isLetter (a : ascii) : bool :=
  let n := nat_of_ascii a in
  (Nat.leb 65 n && Nat.leb n 90) || (Nat.leb 97 n && Nat.leb n 122).

(** [String.prototype.toLowerCase] on the letters [A] to [Z]. *)
Definition toLowerAscii (a : ascii) : ascii :=
  let n := nat_of_ascii a in
  if Nat.leb 65 n && Nat.leb n 90 then ascii_of_nat (n + 32) else a.

(** The separator of Windows paths. *)
Definition backslash : ascii := ascii_of_nat 92.

Fixpoint toLowerCase (s : string) : string :=
  match s with
  | EmptyString => EmptyString
  | String a s' => String (toLowerAscii a) (toLowerCase s')
  end.

(** [uri.fsPath] before the separators are made those of the platform: a
    UNC path for a [file] URI with an authority, a lower-case drive
    letter without the leading slash for [/C:...], and the path as it is
    otherwise. *)
Definition fsPathValue (u : Uri) : string :=
  if bool_decide (authority u <> "") && Nat.ltb 1 (String.length (uriPath u))
     && bool_decide (scheme u = "file")
  then "//" +:+ authority u +:+ uriPath u
  else match uriPath u with
       | String "/" (String d (String ":" rest)) =>
           if isLetter d then String (toLowerAscii d) (String ":" rest)
           else uriPath u
       | _ => uriPath u
       end.

(** [uri.fsPath] on a POSIX host, where the separators stay as they are. *)
Definition fsPath (u : Uri) : string := fsPathValue u.

(** [value.replace(/\//g, '\\')] *)
Fixpoint backslashes (s : string) : string :=
  match s with
  | EmptyString => EmptyString
  | String a s' =>
      String (if Ascii.eqb a "/" then backslash else a) (backslashes s')
  end.

(** [uri.fsPath] on a Windows host. *)
Definition fsPathWin32 (u : Uri) : string := backslashes (fsPathValue u).

(** [uri.with({ path })] *)
Definition withPath (u : Uri) (p : string) : Uri :=
  mkUri (scheme u) (authority u) p (query u) (fragment u).

(** [Uri.file(p)] for an absolute POSIX path. *)
Definition fileUri (p : string) : Uri := mkUri "file" "" p "" "".

(** ** What the host provides

    Functions of Node, of the WHATWG [URL] class, of the editor API and of
    express that the extension calls and whose code is not part of it. *)

Class Host := {
  (** [process.cwd()] *)
  cwd : string;
  (** [new URL(p, 'dummy://dummy/').pathname]; [None] when [new URL] throws *)
  urlPathname : string -> option string;
  (** [uri.toString()] *)
  uriToString : Uri -> string;
  (** [path.dirname] and [path.basename] *)
  dirname : string -> string;
  basename : string -> string;
  (** [Uri.parse(s, true)]; [None] when it throws *)
  uriParse : string -> option Uri;
  (** [new URL('.', s).pathname]; [None] when [new URL] throws *)
  urlDirectory : string -> option string;
  (** the media type [res.type(ext)] puts into [Content-Type] *)
  mimeLookup : string -> string;
  (** [new Date(ms).toUTCString()] *)
  toUTCString : Z -> string
}.

(** ** Theme paths *)

(** An entry of the [themes] setting: the setting is user-written JSON, and
    [normalizePaths] tests [typeof p !== 'string'] at run time. *)
Inductive ConfEntry :=
| CString (s : string)
| COther.

Definition isRemotePath (p : string) : bool :=
  Js.startsWith p "https:" || Js.startsWith p "http:".

Definition isSchemeChar (a : ascii) : bool :=
  let n := nat_of_ascii a in
  (Nat.leb 97 n && Nat.leb n 122) || (Nat.leb 48 n && Nat.leb n 57)
  || Nat.eqb n 46 || Nat.eqb n 43 || Nat.eqb n 45.

(** What follows the scheme in [/^[a-z0-9.+-]+:\/\/\b/]: the three
    characters [://] and then a word character (the [\b] after a slash). *)
Definition afterScheme (s : string) : bool :=
  match s with
  | String ":" (String "/" (String "/" (String a _))) => Js.isWord a
  | _ => false
  end.

(** The regular expression is greedy on the scheme but [:] is no scheme
    character, so the scheme is the longest run of scheme characters. *)
Fixpoint isVirtualPath_go (seen : bool) (s : string) : bool :=
  match s with
  | EmptyString => false
  | String a s' =>
      if isSchemeChar a then isVirtualPath_go true s'
      else seen && afterScheme s
  end.

Definition isVirtualPath (p : string) : bool := isVirtualPath_go false p.

(** [Set.prototype.add] on an insertion-ordered set. *)
Definition setAdd (x : string) (s : list string) : list string :=
  if decide (x ∈ s) then s else s ++ [x].

Section Normalizer.
Context `{Host}.

(** One turn of the loop of [normalizePaths]. *)
Definition normalizePath (rootUri : option Uri)
    (normalizedPaths : list string) (p : ConfEntry) : list string :=
  match p with
  | COther => normalizedPaths
  | CString p =>
      if isRemotePath p then setAdd p normalizedPaths
      else match rootUri with
           | None => normalizedPaths
           | Some rootUri =>
               if decide (scheme rootUri = "file") then
                 let resolvedPath := Path.resolve cwd (fsPath rootUri) p in
                 if negb (Js.startsWith
                            (Path.relative cwd (fsPath rootUri) resolvedPath)
                            "..")
                 then setAdd resolvedPath normalizedPaths
                 else normalizedPaths
               else
                 match urlPathname p with
                 | Some relativePath =>
                     setAdd
                       (uriToString
                          (withPath rootUri (uriPath rootUri +:+ relativePath)))
                       normalizedPaths
                 | None => normalizedPaths
                 end
           end
  end.

Definition normalizePaths (paths : list ConfEntry) (rootUri : option Uri)
  : list string :=
  fold_left (normalizePath rootUri) paths [].

(** Where a key of [normalizePaths] comes from, for a base of scheme
    [file]: a remote reference that was taken as it is, or a reference
    that was resolved and that passed the guard. *)
Definition keyOrigin (rootUri : Uri) (p key : string) : Prop :=
  (isRemotePath p = true /\ key = p)
  \/ (isRemotePath p = false
      /\ key = Path.resolve cwd (fsPath rootUri) p
      /\ Path.segments cwd key = Path.resolveSegments cwd (fsPath rootUri) p
      /\ Path.within cwd (fsPath rootUri) key).

(** The key an entry of the setting contributes, if any. *)
Definition keyOf (rootUri : option Uri) (e : ConfEntry) : option string :=
  match normalizePath rootUri [] e with
  | [key] => Some key
  | _ => None
  end.

End Normalizer.

(** ** [path] on a Windows host

    On Windows [path] is [path.win32] and [uri.fsPath] writes backslashes.
    [path.win32] is written here for paths with a drive letter ([C:\a\b],
    with either separator) and for paths relative to them, on the drive
    letter and the list of segments; UNC paths and paths relative to a
    drive ([C:a]) are not covered. *)

Module Win32.

Definition isSeparator (a : ascii) : bool :=
  Ascii.eqb a "/" || Ascii.eqb a backslash.

(** The pieces of [s] between separators. *)
Fixpoint split (s : string) : list string :=
  match s with
  | EmptyString => [EmptyString]
  | String a s' =>
      if isSeparator a then EmptyString :: split s'
      else match split s' with
           | x :: xs => String a x :: xs
           | [] => [String a EmptyString]
           end
  end.

(** The drive letter of a path that opens with [X:] and a separator, and
    what follows the colon. *)
Definition drive (p : string) : option (ascii * string) :=
  match p with
  | String d (String ":" (String sep rest)) =>
      if isLetter d && isSeparator sep then Some (d, String sep rest)
      else None
  | _ => None
  end.

(** The path starts at the root of a drive it does not name. *)
Definition isRooted (p : string) : bool :=
  match p with
  | String a _ => isSeparator a
  | EmptyString => false
  end.

Definition ofSegments (device : ascii) (segs : list string) : string :=
  String device (String ":" (String backslash
    (Js.join (String backslash "") segs))).

Section WithCwd.
(** [process.cwd()]: its drive letter and its segments. *)
Variable cwdDrive : ascii.
Variable cwdSegments : list string.

(** Drive and segments that [to] is resolved against when it names no
    drive: those of [from], or of the working directory under [from]. *)
Definition base (from : string) : ascii * list string :=
  match drive from with
  | Some (d, rest) => (d, split rest)
  | None =>
      (cwdDrive, (if isRooted from then [] else cwdSegments) ++ split from)
  end.

(** Drive and segments of [path.resolve(from, to)]: a [to] with a drive
    letter stands alone; a rooted [to] keeps the drive of [from] only. *)
Definition resolveParts (from to : string) : ascii * list string :=
  match drive to with
  | Some (d, rest) => (d, Path.normalizeSegments (split rest))
  | None =>
      let '(d, segs) := base from in
      (d, Path.normalizeSegments
            ((if isRooted to then [] else segs) ++ split to))
  end.

(** [path.resolve(from, to)] *)
Definition resolve (from to : string) : string :=
  let '(d, segs) := resolveParts from to in ofSegments d segs.

(** Drive and segments of [path.resolve(p)]. *)
Definition parts (p : string) : ascii * list string :=
  let '(d, segs) := base p in (d, Path.normalizeSegments segs).

(** Drops the leading segments two paths share; names are compared
    without regard to case. *)
Fixpoint stripCommon (a b : list string) : list string * list string :=
  match a, b with
  | x :: a', y :: b' =>
      if decide (toLowerCase x = toLowerCase y) then stripCommon a' b'
      else (a, b)
  | _, _ => (a, b)
  end.

(** [path.relative(from, to)]: when the two resolved paths share nothing,
    not even the drive, the answer is the resolved [to] itself; otherwise
    one [".."] for each segment of [from] below the common ancestor, then
    what is left of [to]. *)
Definition relative (from to : string) : string :=
  let '(fromDrive, fromSegs) := parts from in
  let '(toDrive, toSegs) := parts to in
  if decide (toLowerAscii fromDrive = toLowerAscii toDrive) then
    let '(up, down) := stripCommon fromSegs toSegs in
    Js.join (String backslash "") (replicate (length up) ".." ++ down)
  else ofSegments toDrive toSegs.

(** [p] is the directory [dir] or lies below it. *)
Definition within (dir p : string) : bool :=
  let '(dirDrive, dirSegs) := parts dir in
  let '(pDrive, pSegs) := parts p in
  bool_decide (toLowerAscii dirDrive = toLowerAscii pDrive)
  && bool_decide (fst (stripCommon dirSegs pSegs) = []).

End WithCwd.

End Win32.

(** ** [normalizePaths] on either platform

    What [path] and [uri.fsPath] are depends on the platform the editor
    runs on. *)
Record Platform := mkPlatform {
  platformFsPath : Uri -> string;
  platformResolve : string -> string -> string;
  platformRelative : string -> string -> string
}.

Section NormalizerOn.
Context `{Host}.
Variable platform : Platform.

(** One turn of the loop of [normalizePaths], with the functions of
    [platform]. *)
Definition normalizePathOn (rootUri : option Uri)
    (normalizedPaths : list string) (p : ConfEntry) : list string :=
  match p with
  | COther => normalizedPaths
  | CString p =>
      if isRemotePath p then setAdd p normalizedPaths
      else match rootUri with
           | None => normalizedPaths
           | Some rootUri =>
               if decide (scheme rootUri = "file") then
                 let resolvedPath :=
                   platformResolve platform (platformFsPath platform rootUri) p in
                 if negb (Js.startsWith
                            (platformRelative platform
                               (platformFsPath platform rootUri) resolvedPath)
                            "..")
                 then setAdd resolvedPath normalizedPaths
                 else normalizedPaths
               else
                 match urlPathname p with
                 | Some relativePath =>
                     setAdd
                       (uriToString
                          (withPath rootUri (uriPath rootUri +:+ relativePath)))
                       normalizedPaths
                 | None => normalizedPaths
                 end
           end
  end.

Definition normalizePathsOn (paths : list ConfEntry) (rootUri : option Uri)
  : list string :=
  fold_left (normalizePathOn rootUri) paths [].

End NormalizerOn.

(** A POSIX host. *)
Definition posix `{Host} : Platform :=
  mkPlatform fsPath (Path.resolve cwd) (Path.relative cwd).

(** A Windows host whose working directory is on [cwdDrive]. *)
Definition windows (cwdDrive : ascii) (cwdSegments : list string) : Platform :=
  mkPlatform fsPathWin32 (Win32.resolve cwdDrive cwdSegments)
    (Win32.relative cwdDrive cwdSegments).

(** ** Size presets *)

Record SizePreset := mkSizePreset {
  height : string;
  name : string;
  width : string
}.

(** A JavaScript [Map] keeps its keys in insertion order: [set] on a key
    that is present replaces the value where it stands, [set] on a new key
    appends, [delete] takes the entry out. *)
Fixpoint mapSet {V} (k : string) (v : V) (m : list (string * V))
  : list (string * V) :=
  match m with
  | [] => [(k, v)]
  | (k', v') :: m' =>
      if decide (k' = k) then (k, v) :: m' else (k', v') :: mapSet k v m'
  end.

Fixpoint mapDelete {V} (k : string) (m : list (string * V))
  : list (string * V) :=
  match m with
  | [] => []
  | (k', v') :: m' =>
      if decide (k' = k) then mapDelete k m' else (k', v') :: mapDelete k m'
  end.

Fixpoint mapGet {V} (k : string) (m : list (string * V)) : option V :=
  match m with
  | [] => None
  | (k', v') :: m' => if decide (k' = k) then Some v' else mapGet k m'
  end.

(** The body of the loop over [sizeMeta]. *)
Definition applySize (sizes : list (string * SizePreset)) (size : string)
  : list (string * SizePreset) :=
  match Js.splitSpaces size with
  | [a0; a1; a2] => mapSet a0 (mkSizePreset a2 a0 a1) sizes
  | [a0; a1] => if decide (a1 = "false") then mapDelete a0 sizes else sizes
  | _ => sizes
  end.

(** The map [sizes] when the loop has run over [sizeMeta]. *)
Definition sizesOf (sizeMeta : list string) : list (string * SizePreset) :=
  fold_left applySize sizeMeta [].

(** [getSizePresets], from the point where the rendering engine has
    answered: the argument is what [themeSet.getThemeMeta(theme, 'size')]
    returned, [None] for [undefined]. *)
Definition getSizePresets (themeMeta : option (list string))
  : list SizePreset :=
  let sizeMeta := default [] themeMeta in
  (sizesOf sizeMeta).*2.

(** The map [sizes] of [getSizePresets] holds a name once, and holds under
    a name a preset of that name. *)
Definition sizesWellFormed (m : list (string * SizePreset)) : Prop :=
  NoDup m.*1 /\ Forall (fun kv => name kv.2 = kv.1) m.

(** ** The theme cache *)

Inductive ThemeType := File | Remote | VirtualFS.

(** What [onDidChange] and [onDidDelete] of a file-system watcher return:
    the handle of one event subscription. *)
Definition Disposable := nat.

Record Theme := mkTheme {
  css : string;
  onDidChange : option Disposable;
  onDidDelete : option Disposable;
  path : string;
  registered : option bool;
  type : ThemeType
}.

Inductive PatternBase :=
| BaseDirectory (dir : string)
| BaseUri (u : Uri).

Record RelativePattern := mkRelativePattern {
  patternBase : PatternBase;
  pattern : string
}.

Inductive EventKind := Change | Delete.

(** A live subscription: the event it listens to, the pattern of its
    watcher and the [themePath] its closure holds. *)
Record Listener := mkListener {
  listenerKind : EventKind;
  listenerPattern : RelativePattern;
  listenerPath : string
}.

(** Who awaits a call of [registerTheme]: a caller of [loadStyles], or the
    change handler, which requests a preview refresh afterwards. *)
Inductive Continuation := ToCaller | ThenRefresh.

(** A call of [registerTheme] suspended at [await] of its read. *)
Record Pending := mkPending {
  pendingPath : string;
  pendingType : ThemeType;
  pendingThen : Continuation
}.

Inductive Outcome :=
| Fulfilled (theme : Theme)
| Rejected.

Record World := mkWorld {
  (** [marpConfiguration().get('themes')]; [None] when it is no array *)
  themesSetting : option (list ConfEntry);
  observedThemes : gmap string Theme;
  (** the subscriptions that have not been disposed *)
  listeners : gmap Disposable Listener;
  nextDisposable : Disposable;
  (** the suspended calls of [registerTheme], by promise *)
  inFlight : gmap nat Pending;
  (** the promises of [registerTheme] that are settled *)
  settled : gmap nat Outcome;
  nextPromise : nat;
  (** every read or download started, oldest first *)
  fetchLog : list (ThemeType * string);
  (** how often ['markdown.preview.refresh'] was executed *)
  refreshes : nat
}.

Definition emptyWorld (themes : option (list ConfEntry)) : World :=
  mkWorld themes ∅ ∅ 0 ∅ ∅ 0 [] 0.

Definition setObservedThemes (m : gmap string Theme) (w : World) : World :=
  mkWorld (themesSetting w) m (listeners w) (nextDisposable w) (inFlight w)
    (settled w) (nextPromise w) (fetchLog w) (refreshes w).

Definition setListeners (l : gmap Disposable Listener) (w : World) : World :=
  mkWorld (themesSetting w) (observedThemes w) l (nextDisposable w)
    (inFlight w) (settled w) (nextPromise w) (fetchLog w) (refreshes w).

Definition setNextDisposable (n : Disposable) (w : World) : World :=
  mkWorld (themesSetting w) (observedThemes w) (listeners w) n (inFlight w)
    (settled w) (nextPromise w) (fetchLog w) (refreshes w).

Definition setInFlight (p : gmap nat Pending) (w : World) : World :=
  mkWorld (themesSetting w) (observedThemes w) (listeners w)
    (nextDisposable w) p (settled w) (nextPromise w) (fetchLog w)
    (refreshes w).

Definition setSettled (s : gmap nat Outcome) (w : World) : World :=
  mkWorld (themesSetting w) (observedThemes w) (listeners w)
    (nextDisposable w) (inFlight w) s (nextPromise w) (fetchLog w)
    (refreshes w).

Definition setNextPromise (n : nat) (w : World) : World :=
  mkWorld (themesSetting w) (observedThemes w) (listeners w)
    (nextDisposable w) (inFlight w) (settled w) n (fetchLog w) (refreshes w).

Definition setFetchLog (l : list (ThemeType * string)) (w : World) : World :=
  mkWorld (themesSetting w) (observedThemes w) (listeners w)
    (nextDisposable w) (inFlight w) (settled w) (nextPromise w) l
    (refreshes w).

Definition setRefreshes (n : nat) (w : World) : World :=
  mkWorld (themesSetting w) (observedThemes w) (listeners w)
    (nextDisposable w) (inFlight w) (settled w) (nextPromise w) (fetchLog w)
    n.

(** [d.dispose()] of a subscription; disposing twice is harmless. *)
Definition disposeListener (d : Disposable) (w : World) : World :=
  setListeners (delete d (listeners w)) w.

Definition disposeOptional (d : option Disposable) (w : World) : World :=
  match d with
  | Some d => disposeListener d w
  | None => w
  end.

(** The immediately invoked function that computes [type]. *)
Definition themeTypeOf (themePath : string) : ThemeType :=
  if isRemotePath themePath then Remote
  else if isVirtualPath themePath then VirtualFS
  else File.

(** A promise of [registerTheme] settles and whoever awaits it goes on: the
    change handler executes the refresh command when the promise is
    fulfilled and stops at the exception when it is rejected. *)
Definition settle (promise : nat) (k : Continuation) (o : Outcome)
    (w : World) : World :=
  let w := setSettled (<[promise := o]> (settled w)) w in
  match k, o with
  | ThenRefresh, Fulfilled _ => setRefreshes (S (refreshes w)) w
  | _, _ => w
  end.

(** [{ ...registeredTheme, registered: true }]: a copy, the object that
    was spread stays as it is. *)
Definition markRegistered (t : Theme) : Theme :=
  mkTheme (css t) (onDidChange t) (onDidDelete t) (path t) (Some true)
    (type t).

Section Cache.
Context `{Host}.

(** The immediately invoked function that computes [watcherPattern]. *)
Definition watcherPatternOf (type : ThemeType) (themePath : string)
  : option RelativePattern :=
  match type with
  | File =>
      Some (mkRelativePattern (BaseDirectory (dirname themePath))
              (basename themePath))
  | VirtualFS =>
      match uriParse themePath, urlDirectory themePath with
      | Some baseUri, Some pathname =>
          Some (mkRelativePattern (BaseUri (withPath baseUri pathname))
                  (List.last (Js.split "/" (uriPath baseUri)) ""))
      | _, _ => None
      end
  | Remote => None
  end.

(** [registerTheme] from its call to its [await]: a theme that is in the
    map is returned at once; otherwise the read that fits the type is
    started and the call is suspended. *)
Definition registerTheme_call (k : Continuation) (themePath : string)
    (w : World) : World :=
  let promise := nextPromise w in
  let w := setNextPromise (S promise) w in
  match observedThemes w !! themePath with
  | Some theme => settle promise k (Fulfilled theme) w
  | None =>
      let type := themeTypeOf themePath in
      setInFlight (<[promise := mkPending themePath type k]> (inFlight w))
        (setFetchLog (fetchLog w ++ [(type, themePath)]) w)
  end.

(** [registerTheme] from the moment the read has delivered [css] to its
    [return]. *)
Definition registerTheme_resume (promise : nat) (p : Pending) (css : string)
    (w : World) : World :=
  let themePath := pendingPath p in
  let type := pendingType p in
  let '(registeredTheme, w) :=
    match watcherPatternOf type themePath with
    | Some watcherPattern =>
        let change := nextDisposable w in
        let deletion := S change in
        (mkTheme css (Some change) (Some deletion) themePath None type,
         setNextDisposable (S deletion)
           (setListeners
              (<[deletion := mkListener Delete watcherPattern themePath]>
                 (<[change := mkListener Change watcherPattern themePath]>
                    (listeners w)))
              w))
    | None => (mkTheme css None None themePath None type, w)
    end in
  let w :=
    setObservedThemes (<[themePath := registeredTheme]> (observedThemes w)) w
  in
  settle promise (pendingThen p) (Fulfilled (markRegistered registeredTheme))
    w.

(** The read of a suspended call ends: with [Some css] the call goes on,
    with [None] the read has thrown and the promise is rejected. *)
Definition fetchDone (promise : nat) (result : option string) (w : World)
  : World :=
  match inFlight w !! promise with
  | None => w
  | Some p =>
      let w := setInFlight (delete promise (inFlight w)) w in
      match result with
      | Some css => registerTheme_resume promise p css w
      | None => settle promise (pendingThen p) Rejected w
      end
  end.

(** The listener [onDidChange] of a watcher, up to its [await]. *)
Definition changeHandler (d : Disposable) (themePath : string) (w : World)
  : World :=
  let w := disposeListener d w in
  let w := setObservedThemes (delete themePath (observedThemes w)) w in
  registerTheme_call ThenRefresh themePath w.

(** The listener [onDidDelete] of a watcher. *)
Definition deleteHandler (d : Disposable) (themePath : string) (w : World)
  : World :=
  let w := disposeListener d w in
  setObservedThemes (delete themePath (observedThemes w)) w.

(** The watcher delivers an event of kind [e] to the subscription [d];
    a disposed subscription receives nothing. *)
Definition fire (e : EventKind) (d : Disposable) (w : World) : World :=
  match listeners w !! d with
  | Some l =>
      match e, listenerKind l with
      | Change, Change => changeHandler d (listenerPath l) w
      | Delete, Delete => deleteHandler d (listenerPath l) w
      | _, _ => w
      end
  | None => w
  end.

Definition dispose (w : World) : World :=
  let w :=
    map_fold
      (fun _ theme w =>
         disposeOptional (onDidDelete theme)
           (disposeOptional (onDidChange theme) w))
      w (observedThemes w) in
  setObservedThemes ∅ w.

Definition getPathsFromConf (rootUri : option Uri) (w : World)
  : list string :=
  match themesSetting w with
  | Some (p :: themes) => normalizePaths (p :: themes) rootUri
  | _ => []
  end.

Definition getRegisteredStyles (rootUri : option Uri) (w : World)
  : list Theme :=
  omap (fun p => observedThemes w !! p) (getPathsFromConf rootUri w).

(** [loadStyles] runs every call of [registerTheme] up to its [await]
    before it returns the promises. *)
Definition loadStyles (rootUri : option Uri) (w : World) : World :=
  fold_left (fun w p => registerTheme_call ToCaller p w)
    (getPathsFromConf rootUri w) w.

(** What the event loop can run next. *)
Inductive Action :=
| LoadStyles (rootUri : option Uri)
| FetchDone (promise : nat) (result : option string)
| Fire (e : EventKind) (d : Disposable)
| Dispose.

Definition exec (w : World) (a : Action) : World :=
  match a with
  | LoadStyles rootUri => loadStyles rootUri w
  | FetchDone promise result => fetchDone promise result w
  | Fire e d => fire e d w
  | Dispose => dispose w
  end.

Definition run (w : World) (actions : list Action) : World :=
  fold_left exec actions w.

End Cache.

(** ** The workspace proxy server *)

(** Node's [path.extname], POSIX flavour: the extension is looked for in
    the last segment that is not empty (slashes at the end are skipped); it
    starts at the last dot, unless there is no dot, the dot opens the
    segment, or the segment is [".."]. *)
Fixpoint lastDot (s : string) : option string :=
  match s with
  | EmptyString => None
  | String a s' =>
      match lastDot s' with
      | Some ext => Some ext
      | None => if Ascii.eqb a "." then Some s else None
      end
  end.

Definition extname (p : string) : string :=
  let segment :=
    List.last (filter (fun s => s ≠ "") (Js.split "/" p)) "" in
  match segment with
  | EmptyString => ""
  | String _ rest =>
      if decide (segment = "..") then ""
      else default "" (lastDot rest)
  end.

(** [FileType] of the editor: a bit mask. *)
Definition FileType_Unknown : Z := 0.
Definition FileType_File : Z := 1.
Definition FileType_Directory : Z := 2.
Definition FileType_SymbolicLink : Z := 64.

Record FileStat := mkFileStat {
  fileType : Z;
  ctime : Z;
  mtime : Z;
  fileSize : N
}.

(** Why a call of [workspace.fs] threw. *)
Inductive FsError :=
| FileNotFound
| NoPermissions
| Unavailable
| OtherError (message : string).

(** [workspace.fs]: each call succeeds or throws. *)
Record FileSystem := mkFileSystem {
  fsStat : Uri -> FileStat + FsError;
  fsReadFile : Uri -> list Byte.byte + FsError
}.

(** The parts of [new URL(req.url, ...)] the handler reads. *)
Record Url := mkUrl {
  pathname : string;
  search : string;
  hash : string
}.

Inductive Body :=
| Buffer (bytes : list Byte.byte)
| Text (s : string).

(** The response as the handler leaves it at [send]: the headers it has
    set with [type] and [header], the status and the body. *)
Record Response := mkResponse {
  headers : gmap string string;
  status : Z;
  body : Body
}.

(** [workspaceFolder.uri.with({ fragment, path, query })] *)
Definition vscodeUriOf (workspaceFolderUri : Uri) (url : Url) : Uri :=
  mkUri (scheme workspaceFolderUri) (authority workspaceFolderUri)
    (pathname url) (search url) (hash url).

Section Proxy.
Context `{Host}.

(** The handler of [app.get('*', ...)] for a request whose URL parses. *)
Definition handleGet (fs : FileSystem) (workspaceFolderUri : Uri)
    (url : Url) : Response :=
  let vscodeUri := vscodeUriOf workspaceFolderUri url in
  let notFound h := mkResponse h 404 (Text "Not found") in
  let urlExt := extname (pathname url) in
  let typed : gmap string string :=
    if decide (urlExt = "") then ∅
    else {[ "Content-Type" := mimeLookup urlExt ]} in
  match fsStat fs vscodeUri with
  | inr _ => notFound typed
  | inl fileStat =>
      let described :=
        <[ "Last-Modified" := toUTCString (mtime fileStat) ]>
          (<[ "Content-Length" := pretty (fileSize fileStat) ]> typed) in
      if Z.eqb (Z.land (fileType fileStat) FileType_Directory) 0 then
        match fsReadFile fs vscodeUri with
        | inl content => mkResponse described 200 (Buffer content)
        | inr _ => notFound described
        end
      else notFound described
  end.

(** What [uri.with] refuses: it builds a new [Uri], whose constructor
    throws when the path of a URI with an authority does not start with a
    slash and when the path of a URI without one starts with two.  (The
    scheme is that of the workspace folder, which has passed the check of
    the constructor before; the [pathname] of a URL starts with a slash,
    so the constructor has no slash to put before it.) *)
Definition uriWithThrows (u : Uri) : bool :=
  if decide (uriPath u = "") then false
  else if decide (authority u = "") then Js.startsWith (uriPath u) "//"
  else negb (Js.startsWith (uriPath u) "/").

(** [new URL(input, base)] for a base of scheme [http]; [None] when the
    constructor throws. *)
Variable parseUrl : string -> string -> option Url.

(** The handler of [app.get('*', ...)] from the request on.  The URL is
    parsed and mapped into the workspace before the [try]: when either of
    the two throws, the handler ends with no response sent ([None]). *)
Definition handleRequest (fs : FileSystem) (workspaceFolderUri : Uri)
    (reqUrl host : string) : option Response :=
  match parseUrl reqUrl ("http://" +:+ host) with
  | None => None
  | Some url =>
      if uriWithThrows (vscodeUriOf workspaceFolderUri url) then None
      else Some (handleGet fs workspaceFolderUri url)
  end.

End Proxy.

(** ** A concrete host

    A POSIX machine whose working directory is [/home/user]; the functions
    of the host are cut down to what the examples below need. *)

Definition twoDigits (n : Z) : string :=
  if Z.ltb n 10 then "0" +:+ pretty n else pretty n.

Definition fourDigits (n : Z) : string :=
  (if Z.ltb n 10 then "000" else if Z.ltb n 100 then "00"
   else if Z.ltb n 1000 then "0" else "") +:+ pretty n.

(** [new Date(ms).toUTCString()] for a time in the years 0 to 9999: the
    day of the week, then the date of the proleptic Gregorian calendar
    (counted in eras of 400 years that start on a first of March), then
    the time of the day. *)
Definition utcString (ms : Z) : string :=
  let day := (ms / 86400000)%Z in
  let second := ((ms mod 86400000) / 1000)%Z in
  let z := (day + 719468)%Z in
  let era := (z / 146097)%Z in
  let doe := (z - era * 146097)%Z in
  let yoe := ((doe - doe / 1460 + doe / 36524 - doe / 146096) / 365)%Z in
  let doy := (doe - (365 * yoe + yoe / 4 - yoe / 100))%Z in
  let mp := ((5 * doy + 2) / 153)%Z in
  let date := (doy - (153 * mp + 2) / 5 + 1)%Z in
  let month := (if Z.ltb mp 10 then mp + 3 else mp - 9)%Z in
  let year := (yoe + era * 400 + (if Z.leb month 2 then 1 else 0))%Z in
  nth (Z.to_nat ((day + 4) mod 7))
    ["Sun"; "Mon"; "Tue"; "Wed"; "Thu"; "Fri"; "Sat"] ""
  +:+ ", " +:+ twoDigits date +:+ " "
  +:+ nth (Z.to_nat (month - 1))
        ["Jan"; "Feb"; "Mar"; "Apr"; "May"; "Jun";
         "Jul"; "Aug"; "Sep"; "Oct"; "Nov"; "Dec"] ""
  +:+ " " +:+ fourDigits year +:+ " "
  +:+ twoDigits (second / 3600) +:+ ":"
  +:+ twoDigits ((second / 60) mod 60) +:+ ":"
  +:+ twoDigits (second mod 60) +:+ " GMT".

Definition exampleHost : Host := {|
  cwd := "/home/user";
  urlPathname := fun p => Some (Path.resolve "/" "/" p);
  uriToString := fun u => scheme u +:+ "://" +:+ authority u +:+ uriPath u;
  dirname := fun p => Path.resolve "/" p "..";
  basename := fun p => List.last (Js.split "/" p) "";
  uriParse := fun s =>
    match Js.split "/" s with
    | sch :: "" :: auth :: rest =>
        Some (mkUri (String.substring 0 (String.length sch - 1) sch) auth
                ("/" +:+ Js.join "/" rest) "" "")
    | _ => None
    end;
  urlDirectory := fun s =>
    match Js.split "/" s with
    | _ :: "" :: _ :: rest =>
        Some (Js.join "/" ("" :: removelast rest ++ [""]))
    | _ => None
    end;
  mimeLookup := fun ext =>
    if decide (ext = ".css") then "text/css; charset=utf-8"
    else if decide (ext = ".png") then "image/png"
    else "application/octet-stream";
  toUTCString := utcString
|}.

(** [new URL(input, base)] on the request lines of the examples: the
    line [//] has no host and is refused, the dot of [/.//etc] is removed
    and leaves a path of two slashes, and a plain absolute path is the
    [pathname]. *)
Definition exampleParseUrl (input base : string) : option Url :=
  if decide (input = "//") then None
  else if decide (input = "/.//etc") then Some (mkUrl "//etc" "" "")
  else Some (mkUrl input "" "").

(** A workspace with the style sheet [/style.css] and the directory
    [/assets]; the disk fails on [/broken.css]. *)
Definition exampleFs : FileSystem := {|
  fsStat := fun u =>
    if decide (uriPath u = "/style.css") then
      inl (mkFileStat FileType_File 0 1000 3)
    else if decide (uriPath u = "/assets") then
      inl (mkFileStat FileType_Directory 0 2000 4096)
    else if decide (uriPath u = "/broken.css") then inr Unavailable
    else inr FileNotFound;
  fsReadFile := fun u =>
    if decide (uriPath u = "/style.css") then
      inl [Byte.x61; Byte.x7b; Byte.x7d]
    else inr FileNotFound
|}.

(** The setting names one theme, [theme.css], and the workspace folder is
    [/ws]. *)
Definition exampleThemes : option (list ConfEntry) :=
  Some [CString "theme.css"].

Definition exampleRoot : option Uri := Some (fileUri "/ws").

Definition exampleKey : string := "/ws/theme.css".

Definition examplePattern : RelativePattern :=
  mkRelativePattern (BaseDirectory "/ws") "theme.css".

(** The theme has been loaded and its read has delivered ["a"]. *)
Definition registeredWorld : World :=
  run (H := exampleHost) (emptyWorld exampleThemes)
    [LoadStyles exampleRoot; FetchDone 0 (Some "a")].

(** ** The theme set of a document *)

(** What [getMarpThemeSetFor] reads of a [TextDocument]. *)
Record TextDocument := mkTextDocument {
  docUri : Uri;
  fileName : string
}.

Section ThemeSetView.
Context `{Host}.
(** [workspace.getWorkspaceFolder(uri)?.uri] *)
Variable getWorkspaceFolder : Uri -> option Uri.
(** The theme set of the rendering engine and its [add], which parses the
    style sheet and throws ([None]) when it does not accept it. *)
Variable ThemeSet : Type.
Variable themeSetAdd : ThemeSet -> string -> option ThemeSet.

Definition resolveBaseDirectoryForTheme (doc : TextDocument) : Uri :=
  match getWorkspaceFolder (docUri doc) with
  | Some workspaceFolderUri => workspaceFolderUri
  | None => withPath (docUri doc) (dirname (fileName doc))
  end.

(** The body of the loop of [getMarpThemeSetFor]: [add] in a [try] whose
    [catch] does nothing. *)
Definition addTheme (themeSet : ThemeSet) (theme : Theme) : ThemeSet :=
  match themeSetAdd themeSet (css theme) with
  | Some added => added
  | None => themeSet
  end.

(** [getMarpThemeSetFor]; [fresh] is the theme set of [new Marp()]. *)
Definition getMarpThemeSetFor (fresh : ThemeSet) (doc : TextDocument)
    (w : World) : ThemeSet :=
  fold_left addTheme
    (getRegisteredStyles (Some (resolveBaseDirectoryForTheme doc)) w) fresh.

End ThemeSetView.

(** ** Downloads *)

(** How a download by [nodeFetch] ends: with a response, whose [text()]
    may itself fail, or with a rejection (no connection, or the abort that
    the timer of [fetch] sends after [timeout] milliseconds). *)
Inductive Download :=
| Responded (status : Z) (text : option string)
| Broken.

(** [res.ok] of node-fetch: a status from 200 to 299. *)
Definition responseOk (status : Z) : bool :=
  Z.leb 200 status && Z.ltb status 300.

(** [fetch] of [utils]: the text of a response that is ok; a rejection
    ([None]) in every other case. *)
Definition fetch (d : Download) : option string :=
  match d with
  | Responded status text => if responseOk status then text else None
  | Broken => None
  end.

(** The reads that calls of [registerTheme] for the keys [ks] start in a
    world whose map is [m]. *)
Definition readsFor (m : gmap string Theme) (ks : list string)
  : list (ThemeType * string) :=
  (fun k => (themeTypeOf k, k)) <$> filter (fun k => k ∉ dom m) ks.

(** [d] is a subscription that a record of the map [m] holds. *)
Definition heldBy (m : gmap string Theme) (d : Disposable) : Prop :=
  exists k t,
    m !! k = Some t /\ (onDidChange t = Some d \/ onDidDelete t = Some d).

(** ** Worlds the event loop can reach *)

Section Reachable.
Context `{Host}.

(** The worlds reached from an empty cache by what the event loop runs. *)
Definition reachable (w : World) : Prop :=
  exists themes actions, w = run (emptyWorld themes) actions.

(** A record of the map is filed under its own path, has the type of that
    path and no [registered] mark; it holds both subscriptions, made one
    after the other, exactly when its path has a pattern to watch. *)
Definition recordsConsistent (w : World) : Prop :=
  forall k t,
    observedThemes w !! k = Some t ->
    path t = k /\ type t = themeTypeOf k /\ registered t = None
    /\ onDidDelete t = S <$> onDidChange t
    /\ (is_Some (onDidChange t) <->
        is_Some (watcherPatternOf (themeTypeOf k) k))
    /\ (forall d, onDidChange t = Some d -> S d < nextDisposable w).

(** A live subscription has a handle below the next one to be made and
    watches the pattern of the path its listener holds. *)
Definition listenersConsistent (w : World) : Prop :=
  forall d l,
    listeners w !! d = Some l ->
    d < nextDisposable w
    /\ watcherPatternOf (themeTypeOf (listenerPath l)) (listenerPath l)
       = Some (listenerPattern l).

(** Every promise made so far is either in flight or settled, not both,
    and a call in flight reads with the type of its path. *)
Definition promisesConsistent (w : World) : Prop :=
  (forall i p,
     inFlight w !! i = Some p ->
     i < nextPromise w /\ pendingType p = themeTypeOf (pendingPath p)
     /\ settled w !! i = None)
  /\ (forall i o, settled w !! i = Some o -> i < nextPromise w)
  /\ (forall i, i < nextPromise w ->
        is_Some (inFlight w !! i) \/ is_Some (settled w !! i)).

Definition consistent (w : World) : Prop :=
  recordsConsistent w /\ listenersConsistent w /\ promisesConsistent w.

End Reachable.

(** * Properties *)

(** ** Strings and paths *)

Lemma join_dotdot (n : nat) (down : list string) :
  Js.startsWith (Js.join "/" (replicate (S n) ".." ++ down)) ".." = true.
Proof.
  cbn [replicate app Js.join].
  destruct (replicate n ".." ++ down); reflexivity.
Qed.

Lemma stripCommon_prefix (a b : list string) :
  (Path.stripCommon a b).1 = [] -> a `prefix_of` b.
Proof.
  revert b; induction a as [|x a IH]; intros b Hup.
  - apply prefix_nil.
  - destruct b as [|y b]; [discriminate Hup|].
    cbn in Hup. destruct (decide (x = y)) as [->|]; [|discriminate Hup].
    apply prefix_cons, IH, Hup.
Qed.

Lemma split_without_separator (c : ascii) (s : string) :
  Forall (fun x => Js.includes x c = false) (Js.split c s).
Proof.
  induction s as [|a s IH]; cbn [Js.split].
  - by repeat constructor.
  - destruct (Ascii.eqb a c) eqn:Hac; [by constructor|].
    destruct (Js.split c s) as [|x xs].
    + repeat constructor. cbn [Js.includes]. by rewrite Hac.
    + apply Forall_cons in IH as [Hx Hxs]. constructor; [|exact Hxs].
      cbn [Js.includes]. by rewrite Hac.
Qed.

Lemma split_append_separator (c : ascii) (x s : string) :
  Js.includes x c = false ->
  Js.split c (x +:+ String c s) = x :: Js.split c s.
Proof.
  induction x as [|a x IH].
  - intros _. change ("" +:+ String c s) with (String c s).
    cbn [Js.split]. by rewrite Ascii.eqb_refl.
  - change (String a x +:+ String c s) with (String a (x +:+ String c s)).
    cbn [Js.split Js.includes].
    intros [Hac Hx]%orb_false_iff. by rewrite Hac, (IH Hx).
Qed.

Lemma split_whole (c : ascii) (x : string) :
  Js.includes x c = false -> Js.split c x = [x].
Proof.
  induction x as [|a x IH]; cbn [Js.split Js.includes]; [reflexivity|].
  intros [Hac Hx]%orb_false_iff. by rewrite Hac, (IH Hx).
Qed.

Lemma split_join (c : ascii) (segs : list string) :
  segs ≠ [] ->
  Forall (fun x => Js.includes x c = false) segs ->
  Js.split c (Js.join (String c "") segs) = segs.
Proof.
  intros Hne Hsegs. induction Hsegs as [|x segs Hx Hsegs IH]; [done|].
  destruct segs as [|y segs].
  - by apply split_whole.
  - change (Js.join (String c "") (x :: y :: segs))
      with (x +:+ String c (Js.join (String c "") (y :: segs))).
    rewrite split_append_separator by assumption. by rewrite IH.
Qed.

Lemma pushSegment_proper (stack : list string) (seg : string) :
  Js.includes seg "/" = false ->
  Forall Path.properSegment stack ->
  Forall Path.properSegment (Path.pushSegment stack seg).
Proof.
  intros Hseg Hstack. unfold Path.pushSegment.
  repeat case_decide; try assumption.
  - destruct Hstack; [constructor|assumption].
  - by constructor.
Qed.

Lemma fold_pushSegment_proper (segs stack : list string) :
  Forall (fun x => Js.includes x "/" = false) segs ->
  Forall Path.properSegment stack ->
  Forall Path.properSegment (fold_left Path.pushSegment segs stack).
Proof.
  intros Hsegs. revert stack.
  induction Hsegs as [|seg segs Hseg Hsegs IH]; intros stack Hstack.
  - assumption.
  - cbn [fold_left]. by apply IH, pushSegment_proper.
Qed.

(** What [path.resolve] returns is made of proper segments. *)
Lemma normalizeSegments_proper (segs : list string) :
  Forall (fun x => Js.includes x "/" = false) segs ->
  Forall Path.properSegment (Path.normalizeSegments segs).
Proof.
  intros Hsegs. unfold Path.normalizeSegments.
  apply Forall_reverse.
  apply fold_pushSegment_proper; [assumption|constructor].
Qed.

Lemma fold_pushSegment_id (segs stack : list string) :
  Forall Path.properSegment segs ->
  fold_left Path.pushSegment segs stack = reverse segs ++ stack.
Proof.
  intros Hsegs. revert stack.
  induction Hsegs as [|seg segs (? & ? & ? & ?) Hsegs IH]; intros stack.
  - reflexivity.
  - cbn [fold_left]. rewrite IH, reverse_cons, <- app_assoc.
    unfold Path.pushSegment. by repeat case_decide.
Qed.

Lemma isAbsolute_ofSegments (segs : list string) :
  Path.isAbsolute (Path.ofSegments segs) = true.
Proof.
  unfold Path.isAbsolute, Path.ofSegments, Js.startsWith.
  change ("/" +:+ Js.join "/" segs) with (String "/" (Js.join "/" segs)).
  by destruct (Js.join "/" segs).
Qed.

(** Resolving a path that [path.resolve] has returned changes nothing. *)
Lemma segments_ofSegments (cwd : string) (segs : list string) :
  Forall Path.properSegment segs ->
  Path.segments cwd (Path.ofSegments segs) = segs.
Proof.
  intros Hsegs. unfold Path.segments.
  rewrite isAbsolute_ofSegments. unfold Path.ofSegments.
  cbn [app]. unfold Path.normalizeSegments.
  destruct segs as [|x segs]; [reflexivity|].
  change ("/" +:+ Js.join "/" (x :: segs))
    with ("" +:+ String "/" (Js.join "/" (x :: segs))).
  rewrite split_append_separator by reflexivity.
  rewrite split_join; [|done|].
  - change (fold_left Path.pushSegment ("" :: x :: segs) [])
      with (fold_left Path.pushSegment (x :: segs) []).
    rewrite fold_pushSegment_id by assumption.
    by rewrite app_nil_r, reverse_involutive.
  - eapply Forall_impl; [exact Hsegs|]. by intros ? (_ & _ & _ & ?).
Qed.

Lemma resolveSegments_proper (cwd from to : string) :
  Forall Path.properSegment (Path.resolveSegments cwd from to).
Proof.
  unfold Path.resolveSegments. apply normalizeSegments_proper.
  repeat (case_match || apply Forall_app_2 || apply Forall_nil_2
          || apply split_without_separator).
Qed.

(** The segments of the string [path.resolve(from, to)] are the segments
    the resolution has computed. *)
Lemma segments_resolve (cwd from to : string) :
  Path.segments cwd (Path.resolve cwd from to)
  = Path.resolveSegments cwd from to.
Proof. apply segments_ofSegments, resolveSegments_proper. Qed.

(** The guard of [normalizePaths]: a relative path that does not begin
    with two dots leads to a place within the base. *)
Lemma relative_guard (cwd from to : string) :
  Js.startsWith (Path.relative cwd from to) ".." = false ->
  Path.within cwd from to.
Proof.
  unfold Path.relative, Path.within.
  destruct (Path.stripCommon _ _) as [up down] eqn:E.
  destruct up as [|u up]; intros Hguard.
  - apply stripCommon_prefix. by rewrite E.
  - cbn [length] in Hguard. by rewrite join_dotdot in Hguard.
Qed.

(** ** [normalizePaths] *)

Lemma elem_of_setAdd (x y : string) (s : list string) :
  y ∈ setAdd x s <-> y = x \/ y ∈ s.
Proof.
  unfold setAdd. destruct (decide (x ∈ s)) as [Hin|Hout].
  - split; [tauto|]. intros [->|]; assumption.
  - rewrite elem_of_app, list_elem_of_singleton. tauto.
Qed.

Lemma NoDup_setAdd (x : string) (s : list string) :
  NoDup s -> NoDup (setAdd x s).
Proof.
  intros Hs. unfold setAdd. destruct (decide (x ∈ s)); [assumption|].
  apply NoDup_app. repeat split; [assumption| |apply NoDup_singleton].
  intros y Hy ->%list_elem_of_singleton. contradiction.
Qed.

Section NormalizerFacts.
Context `{Host}.

Lemma normalizePath_file (rootUri : Uri) (acc : list string)
    (e : ConfEntry) (key : string) :
  scheme rootUri = "file" ->
  key ∈ normalizePath (Some rootUri) acc e ->
  key ∈ acc \/ exists p, e = CString p /\ keyOrigin rootUri p key.
Proof.
  intros Hfile. unfold normalizePath, keyOrigin.
  destruct e as [p|]; [|tauto].
  destruct (isRemotePath p) eqn:Hremote.
  - rewrite elem_of_setAdd. intros [->|]; [right|tauto]. eauto.
  - destruct (decide (scheme rootUri = "file")); [|contradiction].
    cbv zeta.
    destruct (Js.startsWith _ "..") eqn:Hguard; cbn [negb]; [tauto|].
    rewrite elem_of_setAdd. intros [->|]; [right|tauto].
    exists p. split; [reflexivity|]. right.
    split; [exact Hremote|]. split; [reflexivity|].
    split; [apply segments_resolve|]. by apply relative_guard.
Qed.

Lemma normalizePaths_file_acc (rootUri : Uri) (paths : list ConfEntry)
    (acc : list string) (key : string) :
  scheme rootUri = "file" ->
  key ∈ fold_left (normalizePath (Some rootUri)) paths acc ->
  key ∈ acc \/ exists p, CString p ∈ paths /\ keyOrigin rootUri p key.
Proof.
  intros Hfile. revert acc.
  induction paths as [|e paths IH]; intros acc; cbn [fold_left].
  - tauto.
  - intros [Hacc|(p & Hp & Horigin)]%IH.
    + apply normalizePath_file in Hacc as [?|(p & -> & ?)];
        [tauto|right|assumption].
      exists p. split; [left|assumption].
    + right. exists p. split; [by right|assumption].
Qed.

Lemma NoDup_normalizePath (rootUri : option Uri) (acc : list string)
    (e : ConfEntry) :
  NoDup acc -> NoDup (normalizePath rootUri acc e).
Proof.
  intros Hacc. unfold normalizePath.
  repeat (case_match; try assumption); by apply NoDup_setAdd.
Qed.

Lemma NoDup_normalizePaths_acc (rootUri : option Uri)
    (paths : list ConfEntry) (acc : list string) :
  NoDup acc -> NoDup (fold_left (normalizePath rootUri) paths acc).
Proof.
  revert acc. induction paths as [|e paths IH]; intros acc Hacc.
  - assumption.
  - cbn [fold_left]. by apply IH, NoDup_normalizePath.
Qed.

(** [normalizePaths] is [normalizePathsOn] with the functions of a POSIX
    host. *)
Lemma normalizePathsOn_posix (paths : list ConfEntry) (rootUri : option Uri) :
  normalizePathsOn posix paths rootUri = normalizePaths paths rootUri.
Proof. reflexivity. Qed.

(** The traversal guard on a POSIX host.  With a base of scheme [file], a
    resolved path enters the result of [normalizePaths] only if it is the
    base directory or lies within it; the other keys of the result are
    the remote references, which are never resolved.  The reference
    [../../etc/passwd] against the base [/workspace/project] leaves the
    result empty. *)
Theorem normalizePaths_traversal_guard (paths : list ConfEntry)
    (rootUri : Uri) :
  scheme rootUri = "file" ->
  (forall key, key ∈ normalizePaths paths (Some rootUri) ->
     exists p, CString p ∈ paths /\ keyOrigin rootUri p key)
  /\ normalizePaths [CString "../../etc/passwd"]
       (Some (fileUri "/workspace/project")) = [].
Proof.
  intros Hfile. split.
  - intros key Hkey. unfold normalizePaths in Hkey.
    apply normalizePaths_file_acc in Hkey as [Hnil|?];
      [|assumption|assumption].
    by apply elem_of_nil in Hnil.
  - reflexivity.
Qed.

End NormalizerFacts.

(** ** Size presets *)

Lemma mapGet_mapSet {V} (k k' : string) (v : V) (m : list (string * V)) :
  mapGet k' (mapSet k v m) = if decide (k' = k) then Some v else mapGet k' m.
Proof.
  induction m as [|[k0 v0] m IH]; cbn.
  - destruct (decide (k = k')), (decide (k' = k)); congruence.
  - destruct (decide (k0 = k)) as [->|Hk0]; cbn.
    + destruct (decide (k = k')), (decide (k' = k)); congruence.
    + destruct (decide (k0 = k')) as [->|]; [|exact IH].
      destruct (decide (k' = k)); congruence.
Qed.

Lemma mapGet_mapDelete {V} (k k' : string) (m : list (string * V)) :
  mapGet k' (mapDelete k m) = if decide (k' = k) then None else mapGet k' m.
Proof.
  induction m as [|[k0 v0] m IH]; cbn.
  - by destruct (decide (k' = k)).
  - destruct (decide (k0 = k)) as [->|Hk0]; cbn.
    + rewrite IH. destruct (decide (k' = k)), (decide (k = k')); congruence.
    + destruct (decide (k0 = k')) as [->|]; [|exact IH].
      destruct (decide (k' = k)); congruence.
Qed.

Lemma keys_mapSet {V} (k : string) (v : V) (m : list (string * V)) :
  (mapSet k v m).*1 = if decide (k ∈ m.*1) then m.*1 else m.*1 ++ [k].
Proof.
  induction m as [|[k0 v0] m IH]; cbn.
  - destruct (decide (k ∈ [])) as [Hin|]; [|reflexivity].
    by apply elem_of_nil in Hin.
  - destruct (decide (k0 = k)) as [->|Hk0]; cbn.
    + destruct (decide (k ∈ k :: m.*1)) as [|Hout]; [reflexivity|].
      destruct Hout. left.
    + rewrite IH.
      destruct (decide (k ∈ m.*1)), (decide (k ∈ k0 :: m.*1)) as [Hin|Hout];
        try reflexivity.
      * destruct Hout. by right.
      * apply elem_of_cons in Hin as [->|]; contradiction.
Qed.

Lemma keys_mapDelete {V} (k : string) (m : list (string * V)) :
  (mapDelete k m).*1 = filter (fun k' => k' ≠ k) m.*1.
Proof.
  induction m as [|[k0 v0] m IH]; [reflexivity|].
  cbn [mapDelete fmap list_fmap fst]. rewrite filter_cons.
  destruct (decide (k0 = k)) as [->|Hk0];
    destruct (decide _) as [?|?]; try contradiction;
    cbn [fmap list_fmap fst]; by rewrite <- IH.
Qed.

Lemma Forall_mapSet {V} (P : string * V -> Prop) (k : string) (v : V)
    (m : list (string * V)) :
  P (k, v) -> Forall P m -> Forall P (mapSet k v m).
Proof.
  intros Hkv. induction 1 as [|[k0 v0] m H0 Hm IH]; cbn.
  - by constructor.
  - destruct (decide (k0 = k)); by constructor.
Qed.

Lemma Forall_mapDelete {V} (P : string * V -> Prop) (k : string)
    (m : list (string * V)) :
  Forall P m -> Forall P (mapDelete k m).
Proof.
  induction 1 as [|[k0 v0] m H0 Hm IH]; cbn.
  - constructor.
  - destruct (decide (k0 = k)); [assumption|by constructor].
Qed.

Lemma applySize_wellFormed (m : list (string * SizePreset)) (line : string) :
  sizesWellFormed m -> sizesWellFormed (applySize m line).
Proof.
  intros [Hkeys Hnames]. unfold applySize.
  destruct (Js.splitSpaces line) as [|a0 [|a1 [|a2 [|? ?]]]];
    try (by split).
  - destruct (decide (a1 = "false")); [|by split]. split.
    + rewrite keys_mapDelete. by apply NoDup_filter.
    + by apply Forall_mapDelete.
  - split.
    + rewrite keys_mapSet. destruct (decide (a0 ∈ m.*1)); [assumption|].
      apply NoDup_app. repeat split; [assumption| |apply NoDup_singleton].
      intros k Hk ->%list_elem_of_singleton. contradiction.
    + by apply Forall_mapSet.
Qed.

Lemma sizesOf_wellFormed_acc (lines : list string)
    (m : list (string * SizePreset)) :
  sizesWellFormed m -> sizesWellFormed (fold_left applySize lines m).
Proof.
  revert m. induction lines as [|line lines IH]; intros m Hm.
  - assumption.
  - cbn [fold_left]. by apply IH, applySize_wellFormed.
Qed.

Lemma sizesOf_wellFormed (lines : list string) :
  sizesWellFormed (sizesOf lines).
Proof.
  apply sizesOf_wellFormed_acc. split; [apply NoDup_nil_2|constructor].
Qed.

Lemma mapGet_elem_of {V} (k : string) (v : V) (m : list (string * V)) :
  NoDup m.*1 -> (k, v) ∈ m <-> mapGet k m = Some v.
Proof.
  induction m as [|[k0 v0] m IH]; cbn; intros Hnd.
  - split; [by intros ?%elem_of_nil|discriminate].
  - apply NoDup_cons in Hnd as [Hk0 Hnd].
    rewrite elem_of_cons, (IH Hnd).
    destruct (decide (k0 = k)) as [->|Hne].
    + split.
      * intros [[= ->]|Hget]; [reflexivity|].
        apply IH in Hget; [|assumption]. destruct Hk0.
        apply list_elem_of_fmap. by exists (k, v).
      * intros [= ->]. by left.
    + split; [|tauto]. intros [[= ? ?]|?]; [congruence|assumption].
Qed.

Lemma sizesOf_snoc (lines : list string) (line : string) :
  sizesOf (lines ++ [line]) = applySize (sizesOf lines) line.
Proof. unfold sizesOf. by rewrite fold_left_app. Qed.

(** C4. The metadata lines are applied in the order they come and the last
    one that names a preset decides: after a further line, a lookup finds
    what that line says of the name (three tokens define it, two tokens
    ending in [false] remove it) and what was found before of every other
    name; the presets returned are those the lookups find; and the four
    lines of the example give the presets [a: 16x9] and [b: 4x3]. *)
Theorem getSizePresets_last_writer_wins (lines : list string)
    (line k : string) (preset : SizePreset) :
  mapGet k (sizesOf (lines ++ [line])) =
    match Js.splitSpaces line with
    | [n; w; h] =>
        if decide (k = n) then Some (mkSizePreset h n w)
        else mapGet k (sizesOf lines)
    | [n; flag] =>
        if decide (flag = "false") then
          if decide (k = n) then None else mapGet k (sizesOf lines)
        else mapGet k (sizesOf lines)
    | _ => mapGet k (sizesOf lines)
    end
  /\ (preset ∈ getSizePresets (Some lines) <->
      mapGet (name preset) (sizesOf lines) = Some preset)
  /\ getSizePresets (Some ["a 4:3 false"; "a 16 9"; "a 16 9"; "b 4 3"])
     = [mkSizePreset "9" "a" "16"; mkSizePreset "3" "b" "4"].
Proof.
  split; [|split].
  - rewrite sizesOf_snoc. unfold applySize.
    destruct (Js.splitSpaces line) as [|n [|w [|h [|? ?]]]];
      try reflexivity.
    + destruct (decide (w = "false")); [|reflexivity].
      apply mapGet_mapDelete.
    + apply mapGet_mapSet.
  - destruct (sizesOf_wellFormed lines) as [Hkeys Hnames].
    unfold getSizePresets. cbn [default].
    rewrite <- mapGet_elem_of by assumption. split.
    + intros ([k' p] & -> & Hin)%list_elem_of_fmap. cbn.
      rewrite Forall_forall in Hnames.
      specialize (Hnames _ Hin). cbn in Hnames. by rewrite Hnames.
    + intros Hin. apply list_elem_of_fmap. by exists (name preset, preset).
  - reflexivity.
Qed.

(** ** The workspace proxy server *)

Section ProxyFacts.
Context `{Host}.

(** C9. A request whose resource can be stat'ed, is no directory and can
    be read is answered with 200, the content, [Content-Length],
    [Last-Modified] and, when the path has an extension, the
    [Content-Type] of that extension.  A request whose [stat] throws is
    answered with 404, and with the same response whatever was thrown. *)
Theorem handleGet_ok_or_not_found (fs : FileSystem)
    (workspaceFolderUri : Uri) (url : Url) :
  let vscodeUri := vscodeUriOf workspaceFolderUri url in
  let response := handleGet fs workspaceFolderUri url in
  (forall fileStat content,
     fsStat fs vscodeUri = inl fileStat ->
     Z.land (fileType fileStat) FileType_Directory = 0%Z ->
     fsReadFile fs vscodeUri = inl content ->
     status response = 200%Z
     /\ body response = Buffer content
     /\ headers response !! "Content-Length" = Some (pretty (fileSize fileStat))
     /\ headers response !! "Last-Modified"
        = Some (toUTCString (mtime fileStat))
     /\ (extname (pathname url) ≠ "" ->
         headers response !! "Content-Type"
         = Some (mimeLookup (extname (pathname url)))))
  /\ (forall e,
        fsStat fs vscodeUri = inr e ->
        status response = 404%Z
        /\ body response = Text "Not found"
        /\ forall fs' e',
             fsStat fs' vscodeUri = inr e' ->
             handleGet fs' workspaceFolderUri url = response).
Proof.
  cbv zeta. unfold handleGet. split.
  - intros fileStat content -> Hfile ->.
    apply Z.eqb_eq in Hfile. rewrite Hfile. cbn [status body headers].
    repeat split.
    + by rewrite lookup_insert_ne, lookup_insert_eq.
    + by rewrite lookup_insert_eq.
    + intros Hext. rewrite !lookup_insert_ne by done.
      destruct (decide _); [contradiction|]. by rewrite lookup_singleton_eq.
  - intros e ->. repeat split. by intros fs' e' ->.
Qed.

(** C10. A request whose resource is a directory is answered with 404;
    by then the handler has put the [Content-Length] and the
    [Last-Modified] of the directory's [stat] on the response. *)
Theorem handleGet_directory (fs : FileSystem) (workspaceFolderUri : Uri)
    (url : Url) (fileStat : FileStat) :
  fsStat fs (vscodeUriOf workspaceFolderUri url) = inl fileStat ->
  Z.land (fileType fileStat) FileType_Directory <> 0%Z ->
  let response := handleGet fs workspaceFolderUri url in
  status response = 404%Z
  /\ body response = Text "Not found"
  /\ headers response !! "Content-Length" = Some (pretty (fileSize fileStat))
  /\ headers response !! "Last-Modified"
     = Some (toUTCString (mtime fileStat)).
Proof.
  intros Hstat Hdir. cbv zeta. unfold handleGet. rewrite Hstat.
  apply Z.eqb_neq in Hdir. rewrite Hdir. cbn [status body headers].
  repeat split.
  - by rewrite lookup_insert_ne, lookup_insert_eq.
  - by rewrite lookup_insert_eq.
Qed.

End ProxyFacts.

(** ** The theme cache *)

Section CacheFacts.
Context `{Host}.

Lemma settle_spec (promise : nat) (k : Continuation) (o : Outcome)
    (w : World) :
  let w' := settle promise k o w in
  themesSetting w' = themesSetting w
  /\ observedThemes w' = observedThemes w
  /\ listeners w' = listeners w
  /\ nextDisposable w' = nextDisposable w
  /\ inFlight w' = inFlight w
  /\ settled w' = <[promise := o]> (settled w)
  /\ nextPromise w' = nextPromise w
  /\ fetchLog w' = fetchLog w
  /\ refreshes w' =
       match k, o with
       | ThenRefresh, Fulfilled _ => S (refreshes w)
       | _, _ => refreshes w
       end.
Proof. destruct k, o; cbn; tauto. Qed.

(** What the second half of [registerTheme] leaves behind. *)
Lemma registerTheme_resume_spec (promise : nat) (p : Pending)
    (content : string) (w : World) :
  let w' := registerTheme_resume promise p content w in
  exists t,
    observedThemes w' = <[pendingPath p := t]> (observedThemes w)
    /\ css t = content /\ path t = pendingPath p /\ type t = pendingType p
    /\ registered t = None
    /\ settled w' = <[promise := Fulfilled (markRegistered t)]> (settled w)
    /\ refreshes w' =
         match pendingThen p with
         | ThenRefresh => S (refreshes w)
         | ToCaller => refreshes w
         end
    /\ inFlight w' = inFlight w /\ fetchLog w' = fetchLog w
    /\ nextPromise w' = nextPromise w
    /\ match watcherPatternOf (pendingType p) (pendingPath p) with
       | Some watcherPattern =>
           let change := nextDisposable w in
           onDidChange t = Some change /\ onDidDelete t = Some (S change)
           /\ listeners w' =
                <[S change :=
                    mkListener Delete watcherPattern (pendingPath p)]>
                  (<[change :=
                       mkListener Change watcherPattern (pendingPath p)]>
                     (listeners w))
           /\ nextDisposable w' = S (S change)
       | None =>
           onDidChange t = None /\ onDidDelete t = None
           /\ listeners w' = listeners w
           /\ nextDisposable w' = nextDisposable w
       end.
Proof.
  cbv zeta. unfold registerTheme_resume.
  destruct (watcherPatternOf (pendingType p) (pendingPath p)) as [pat|];
    eexists; destruct (pendingThen p); cbn; repeat split.
Qed.

Lemma fetchDone_fulfilled (promise : nat) (p : Pending) (content : string)
    (w : World) :
  inFlight w !! promise = Some p ->
  fetchDone promise (Some content) w =
    registerTheme_resume promise p content
      (setInFlight (delete promise (inFlight w)) w).
Proof. intros Hp. unfold fetchDone. by rewrite Hp. Qed.

Lemma fetchDone_rejected (promise : nat) (p : Pending) (w : World) :
  inFlight w !! promise = Some p ->
  fetchDone promise None w =
    settle promise (pendingThen p) Rejected
      (setInFlight (delete promise (inFlight w)) w).
Proof. intros Hp. unfold fetchDone. by rewrite Hp. Qed.

(** A call for a key that is not in the map starts a read and waits. *)
Lemma registerTheme_call_miss (k : Continuation) (themePath : string)
    (w : World) :
  observedThemes w !! themePath = None ->
  let w' := registerTheme_call k themePath w in
  themesSetting w' = themesSetting w
  /\ observedThemes w' = observedThemes w
  /\ listeners w' = listeners w
  /\ nextDisposable w' = nextDisposable w
  /\ inFlight w' =
       <[nextPromise w := mkPending themePath (themeTypeOf themePath) k]>
         (inFlight w)
  /\ settled w' = settled w
  /\ nextPromise w' = S (nextPromise w)
  /\ fetchLog w' = fetchLog w ++ [(themeTypeOf themePath, themePath)]
  /\ refreshes w' = refreshes w.
Proof.
  intros Hmiss. cbv zeta. unfold registerTheme_call. cbn.
  rewrite Hmiss. cbn. tauto.
Qed.

(** A call for a key that is in the map returns the theme of the map and
    reads nothing. *)
Lemma registerTheme_call_hit (k : Continuation) (themePath : string)
    (theme : Theme) (w : World) :
  observedThemes w !! themePath = Some theme ->
  let w' := registerTheme_call k themePath w in
  observedThemes w' = observedThemes w
  /\ listeners w' = listeners w
  /\ inFlight w' = inFlight w
  /\ settled w' = <[nextPromise w := Fulfilled theme]> (settled w)
  /\ nextPromise w' = S (nextPromise w)
  /\ fetchLog w' = fetchLog w.
Proof.
  intros Hhit. cbv zeta. unfold registerTheme_call. cbn.
  rewrite Hhit. destruct k; cbn; tauto.
Qed.

(** The change listener up to its [await]. *)
Lemma changeHandler_spec (d : Disposable) (themePath : string) (w : World) :
  let w' := changeHandler d themePath w in
  themesSetting w' = themesSetting w
  /\ observedThemes w' = delete themePath (observedThemes w)
  /\ listeners w' = delete d (listeners w)
  /\ nextDisposable w' = nextDisposable w
  /\ inFlight w' =
       <[nextPromise w :=
           mkPending themePath (themeTypeOf themePath) ThenRefresh]>
         (inFlight w)
  /\ settled w' = settled w
  /\ nextPromise w' = S (nextPromise w)
  /\ fetchLog w' = fetchLog w ++ [(themeTypeOf themePath, themePath)]
  /\ refreshes w' = refreshes w.
Proof.
  exact (registerTheme_call_miss ThenRefresh themePath
           (setObservedThemes
              (delete themePath (observedThemes (disposeListener d w)))
              (disposeListener d w))
           (lookup_delete_eq (observedThemes w) themePath)).
Qed.



(** Several calls of [registerTheme] for one key with no read completing
    in between. *)
Lemma registerTheme_call_iter (w : World) (themePath : string) (n : nat) :
  observedThemes w !! themePath = None ->
  let w' := Nat.iter n (registerTheme_call ToCaller themePath) w in
  observedThemes w' = observedThemes w
  /\ nextPromise w' = nextPromise w + n
  /\ fetchLog w' =
       fetchLog w ++ replicate n (themeTypeOf themePath, themePath)
  /\ forall i, i < n ->
       inFlight w' !! (nextPromise w + i)
       = Some (mkPending themePath (themeTypeOf themePath) ToCaller).
Proof.
  intros Hmiss. cbv zeta. induction n as [|n (Hmap & Hnext & Hlog & Hfly)].
  - cbn. rewrite app_nil_r. repeat split; [lia|]. intros i Hi. lia.
  - rewrite Nat.iter_succ.
    destruct (registerTheme_call_miss ToCaller themePath
                (Nat.iter n (registerTheme_call ToCaller themePath) w))
      as (_ & Hmap' & _ & _ & Hfly' & _ & Hnext' & Hlog' & _).
    { by rewrite Hmap. }
    rewrite Hmap', Hnext', Hlog', Hfly', Hmap, Hnext, Hlog.
    repeat split.
    + lia.
    + by rewrite replicate_S_end, app_assoc.
    + intros i Hi. destruct (decide (i = n)) as [->|Hne].
      * apply lookup_insert_eq.
      * rewrite lookup_insert_ne by lia. apply Hfly. lia.
Qed.

(** C1, as the code has it.  While a key is not in the map every request
    for it starts a read of its own: [n] requests made before the first
    read completes start [n] reads, and each caller is answered from the
    read of its own request.  Only a request made when the key is in the
    map starts no read and is answered with the theme of the map. *)
Theorem registerTheme_reads_per_request (w : World) (themePath : string)
    (n : nat) :
  observedThemes w !! themePath = None ->
  let pending := mkPending themePath (themeTypeOf themePath) ToCaller in
  let w' := Nat.iter n (registerTheme_call ToCaller themePath) w in
  fetchLog w' = fetchLog w ++ replicate n (themeTypeOf themePath, themePath)
  /\ (forall i, i < n -> inFlight w' !! (nextPromise w + i) = Some pending)
  /\ (forall w1 promise content,
        inFlight w1 !! promise = Some pending ->
        settled (fetchDone promise None w1) !! promise = Some Rejected
        /\ exists t,
             settled (fetchDone promise (Some content) w1) !! promise
             = Some (Fulfilled t)
             /\ css t = content /\ path t = themePath)
  /\ (forall w2 theme,
        observedThemes w2 !! themePath = Some theme ->
        let w3 := registerTheme_call ToCaller themePath w2 in
        fetchLog w3 = fetchLog w2 /\ inFlight w3 = inFlight w2
        /\ settled w3 !! nextPromise w2 = Some (Fulfilled theme)).
Proof.
  intros Hmiss. cbv zeta.
  destruct (registerTheme_call_iter w themePath n Hmiss)
    as (_ & _ & Hlog & Hfly).
  split; [exact Hlog|]. split; [exact Hfly|]. split.
  - intros w1 promise content Hp.
    rewrite (fetchDone_fulfilled _ _ _ _ Hp), (fetchDone_rejected _ _ _ Hp).
    split; [apply lookup_insert_eq|].
    destruct (registerTheme_resume_spec promise
                (mkPending themePath (themeTypeOf themePath) ToCaller)
                content (setInFlight (delete promise (inFlight w1)) w1))
      as (t & _ & Hcss & Hpath & _ & _ & Hsettled & _).
    exists (markRegistered t). rewrite Hsettled, lookup_insert_eq.
    by repeat split.
  - intros w2 theme Hhit.
    destruct (registerTheme_call_hit ToCaller themePath theme w2 Hhit)
      as (_ & _ & Hfly' & Hsettled & _ & Hlog').
    rewrite Hsettled, lookup_insert_eq. by repeat split.
Qed.

(** C5, as the code has it.  When the read of a suspended call succeeds,
    the record is built from the key, the type found at the call and the
    content read, it gets the two subscriptions when there is a pattern to
    watch, and it is stored in the map with no [registered] mark.  The
    mark is on the copy the call returns; a later call that finds the key
    in the map returns the stored record, which has no mark. *)
Theorem resolution_stores_unmarked_record (w : World) (promise : nat)
    (p : Pending) (content : string) :
  inFlight w !! promise = Some p ->
  let w' := fetchDone promise (Some content) w in
  exists t,
    observedThemes w' !! pendingPath p = Some t
    /\ css t = content /\ path t = pendingPath p /\ type t = pendingType p
    /\ registered t = None
    /\ settled w' !! promise = Some (Fulfilled (markRegistered t))
    /\ registered (markRegistered t) = Some true
    /\ match watcherPatternOf (pendingType p) (pendingPath p) with
       | Some pat =>
           exists change deletion,
             onDidChange t = Some change /\ onDidDelete t = Some deletion
             /\ listeners w' !! change
                = Some (mkListener Change pat (pendingPath p))
             /\ listeners w' !! deletion
                = Some (mkListener Delete pat (pendingPath p))
       | None =>
           onDidChange t = None /\ onDidDelete t = None
           /\ listeners w' = listeners w
       end
    /\ (let w'' := registerTheme_call ToCaller (pendingPath p) w' in
        settled w'' !! nextPromise w' = Some (Fulfilled t)
        /\ fetchLog w'' = fetchLog w')
    /\ (forall k themePath w0,
          observedThemes w0 !! themePath = None ->
          inFlight (registerTheme_call k themePath w0) !! nextPromise w0
          = Some (mkPending themePath (themeTypeOf themePath) k)
          /\ fetchLog (registerTheme_call k themePath w0)
             = fetchLog w0 ++ [(themeTypeOf themePath, themePath)]).
Proof.
  intros Hp. cbv zeta. rewrite (fetchDone_fulfilled _ _ _ _ Hp).
  destruct (registerTheme_resume_spec promise p content
              (setInFlight (delete promise (inFlight w)) w))
    as (t & Hmap & Hcss & Hpath & Htype & Hreg & Hsettled & _ & _ & _ & _
        & Hwatch).
  set (w' := registerTheme_resume _ _ _ _) in *.
  assert (Hstored : observedThemes w' !! pendingPath p = Some t)
    by (rewrite Hmap; apply lookup_insert_eq).
  exists t. split; [exact Hstored|]. repeat (split; [assumption|]).
  split; [by rewrite Hsettled, lookup_insert_eq|]. split; [reflexivity|].
  split; [|split].
  - destruct (watcherPatternOf (pendingType p) (pendingPath p)) as [pat|].
    + destruct Hwatch as (Hc & Hd & Hls & _).
      exists (nextDisposable w), (S (nextDisposable w)).
      cbn [nextDisposable setInFlight] in Hc, Hd, Hls. rewrite Hls.
      split; [exact Hc|]. split; [exact Hd|]. split.
      * rewrite lookup_insert_ne by apply Nat.neq_succ_diag_l.
        apply lookup_insert_eq.
      * apply lookup_insert_eq.
    + destruct Hwatch as (Hc & Hd & Hls & _). by repeat split.
  - destruct (registerTheme_call_hit ToCaller (pendingPath p) t w' Hstored)
      as (_ & _ & _ & Hsettled' & _ & Hlog).
    split; [by rewrite Hsettled', lookup_insert_eq|exact Hlog].
  - intros k themePath w0 Hmiss.
    destruct (registerTheme_call_miss k themePath w0 Hmiss)
      as (_ & _ & _ & _ & Hfly & _ & _ & Hlog & _).
    by rewrite Hfly, lookup_insert_eq.
Qed.


Lemma normalizePath_keyOf (rootUri : option Uri) (acc : list string)
    (e : ConfEntry) :
  normalizePath rootUri acc e =
    match keyOf rootUri e with
    | Some key => setAdd key acc
    | None => acc
    end.
Proof.
  unfold keyOf, normalizePath.
  repeat (case_match; try reflexivity; try discriminate);
    cbn in *; congruence.
Qed.

Lemma normalizePaths_two (rootUri : option Uri) (p1 p2 key : string) :
  normalizePaths [CString p1] rootUri = [key] ->
  normalizePaths [CString p2] rootUri = [key] ->
  normalizePaths [CString p1; CString p2] rootUri = [key].
Proof.
  unfold normalizePaths. cbn [fold_left]. intros H1 H2.
  rewrite H1, normalizePath_keyOf. unfold keyOf. rewrite H2.
  unfold setAdd. destruct (decide (key ∈ [key])) as [|Hout]; [reflexivity|].
  destruct Hout. left.
Qed.

(** C8. [normalizePaths] returns no key twice; two references that
    normalize to one key give that one key; loading them starts one read
    and leaves one record in the map; and storing a record under a key
    that is in the map does not add an entry. *)
Theorem one_record_per_key (rootUri : option Uri) (p1 p2 key : string) :
  p1 ≠ p2 ->
  normalizePaths [CString p1] rootUri = [key] ->
  normalizePaths [CString p2] rootUri = [key] ->
  (forall themes root, NoDup (normalizePaths themes root))
  /\ normalizePaths [CString p1; CString p2] rootUri = [key]
  /\ (forall content,
        let w :=
          run (emptyWorld (Some [CString p1; CString p2]))
            [LoadStyles rootUri; FetchDone 0 (Some content)] in
        length (fetchLog w) = 1
        /\ size (observedThemes w) = 1
        /\ is_Some (observedThemes w !! key))
  /\ (forall w promise p content,
        is_Some (observedThemes w !! pendingPath p) ->
        size (observedThemes (registerTheme_resume promise p content w))
        = size (observedThemes w)).
Proof.
  intros _ H1 H2. split; [|split; [|split]].
  - intros themes root. apply NoDup_normalizePaths_acc, NoDup_nil_2.
  - by apply normalizePaths_two.
  - intros content. cbv zeta. unfold run. cbn [fold_left exec].
    set (w0 := emptyWorld _).
    assert (Hload : loadStyles rootUri w0
                    = registerTheme_call ToCaller key w0).
    { unfold loadStyles, getPathsFromConf. cbn [themesSetting emptyWorld w0].
      by rewrite (normalizePaths_two rootUri p1 p2 key H1 H2). }
    rewrite Hload.
    destruct (registerTheme_call_miss ToCaller key w0 (lookup_empty key))
      as (_ & Hmap & _ & _ & Hfly & _ & _ & Hlog & _).
    set (w1 := registerTheme_call ToCaller key w0) in *.
    assert (Hp : inFlight w1 !! 0
                 = Some (mkPending key (themeTypeOf key) ToCaller))
      by (rewrite Hfly; apply lookup_insert_eq).
    rewrite (fetchDone_fulfilled _ _ _ _ Hp).
    destruct (registerTheme_resume_spec 0
                (mkPending key (themeTypeOf key) ToCaller) content
                (setInFlight (delete 0 (inFlight w1)) w1))
      as (t & Hmap' & _ & _ & _ & _ & _ & _ & _ & Hlog' & _).
    rewrite Hlog', Hmap'. cbn [fetchLog observedThemes setInFlight pendingPath].
    rewrite Hlog, Hmap. cbn [fetchLog observedThemes emptyWorld w0].
    rewrite insert_empty, map_size_singleton, lookup_singleton_eq.
    by repeat split.
  - intros w promise p content [t Ht].
    destruct (registerTheme_resume_spec promise p content w)
      as (t' & Hmap & _).
    rewrite Hmap. apply map_size_insert_Some. by exists t.
Qed.

(** ** [dispose] *)

Lemma dispose_clears (w : World) : observedThemes (dispose w) = ∅.
Proof. reflexivity. Qed.

Lemma dispose_idempotent (w : World) : dispose (dispose w) = dispose w.
Proof.
  unfold dispose at 1. rewrite dispose_clears, map_fold_empty.
  unfold dispose. reflexivity.
Qed.

(** [dispose] releases the subscriptions of the records that are in the
    map when it is called. *)
Lemma dispose_releases_stored (w : World) (themePath : string)
    (theme : Theme) (d : Disposable) :
  observedThemes w !! themePath = Some theme ->
  onDidChange theme = Some d \/ onDidDelete theme = Some d ->
  listeners (dispose w) !! d = None.
Proof.
  unfold dispose. cbn [listeners setObservedThemes]. revert themePath theme d.
  apply (map_fold_weak_ind
           (fun r m => forall k t d, m !! k = Some t ->
              onDidChange t = Some d \/ onDidDelete t = Some d ->
              listeners r !! d = None)).
  - intros k t d Hk. by rewrite lookup_empty in Hk.
  - intros i x m r Hi IH k t d Hk Hd.
    assert (Hkeep : forall r' o, listeners r' !! d = None ->
              listeners (disposeOptional o r') !! d = None).
    { intros r' [d'|] Hr'; [|exact Hr']. cbn.
      apply lookup_delete_None. by right. }
    assert (Hdrop : forall r', listeners (disposeOptional (Some d) r') !! d
                               = None)
      by (intros r'; cbn; apply lookup_delete_eq).
    destruct (decide (i = k)) as [->|Hne].
    + rewrite lookup_insert_eq in Hk. injection Hk as ->.
      destruct Hd as [Hd|Hd]; rewrite Hd.
      * apply Hkeep, Hdrop.
      * apply Hdrop.
    + rewrite lookup_insert_ne in Hk by assumption.
      apply Hkeep, Hkeep. by apply (IH k t d).
Qed.

End CacheFacts.

(** ** More on the theme cache *)

Section CacheMore.
Context `{Host}.

(** A call of [registerTheme] up to its [await], whether the key is in
    the map or not. *)
Lemma registerTheme_call_spec (k : Continuation) (themePath : string)
    (w : World) :
  let w' := registerTheme_call k themePath w in
  themesSetting w' = themesSetting w
  /\ observedThemes w' = observedThemes w
  /\ listeners w' = listeners w
  /\ nextDisposable w' = nextDisposable w
  /\ nextPromise w' = S (nextPromise w)
  /\ match observedThemes w !! themePath with
     | Some theme =>
         inFlight w' = inFlight w
         /\ settled w' = <[nextPromise w := Fulfilled theme]> (settled w)
         /\ fetchLog w' = fetchLog w
         /\ refreshes w' =
              match k with
              | ThenRefresh => S (refreshes w)
              | ToCaller => refreshes w
              end
     | None =>
         inFlight w' =
           <[nextPromise w := mkPending themePath (themeTypeOf themePath) k]>
             (inFlight w)
         /\ settled w' = settled w
         /\ fetchLog w' = fetchLog w ++ [(themeTypeOf themePath, themePath)]
         /\ refreshes w' = refreshes w
     end.
Proof.
  cbv zeta. unfold registerTheme_call. cbn.
  destruct (observedThemes w !! themePath); destruct k; cbn; tauto.
Qed.

Lemma registerTheme_calls_spec (ks : list string) (w : World) :
  let w' := fold_left (fun w p => registerTheme_call ToCaller p w) ks w in
  themesSetting w' = themesSetting w
  /\ observedThemes w' = observedThemes w
  /\ listeners w' = listeners w
  /\ nextDisposable w' = nextDisposable w
  /\ nextPromise w' = nextPromise w + length ks
  /\ refreshes w' = refreshes w
  /\ fetchLog w' = fetchLog w ++ readsFor (observedThemes w) ks.
Proof.
  cbv zeta. revert w. induction ks as [|k ks IH]; intros w.
  - unfold readsFor. rewrite filter_nil. cbn. rewrite app_nil_r.
    repeat split. lia.
  - cbn [fold_left length].
    destruct (IH (registerTheme_call ToCaller k w))
      as (Hconf & Hmap & Hls & Hnd & Hnp & Hrefresh & Hlog).
    destruct (registerTheme_call_spec ToCaller k w)
      as (Hconf' & Hmap' & Hls' & Hnd' & Hnp' & Hcase).
    rewrite Hconf, Hmap, Hls, Hnd, Hnp, Hrefresh, Hlog.
    rewrite Hconf', Hmap', Hls', Hnd', Hnp'.
    repeat (split; [reflexivity || lia|]).
    unfold readsFor. rewrite filter_cons.
    destruct (observedThemes w !! k) as [t|] eqn:Hk.
    + destruct Hcase as (_ & _ & Hlog' & Hrefresh').
      rewrite Hrefresh', Hlog'. split; [reflexivity|].
      destruct (decide (k ∉ dom (observedThemes w))) as [Hout|_];
        [|reflexivity].
      apply not_elem_of_dom in Hout. congruence.
    + destruct Hcase as (_ & _ & Hlog' & Hrefresh').
      rewrite Hrefresh', Hlog'. split; [reflexivity|].
      destruct (decide (k ∉ dom (observedThemes w))) as [_|Hin].
      * by rewrite fmap_cons, <- app_assoc.
      * destruct Hin. by apply not_elem_of_dom.
Qed.

Lemma getPathsFromConf_setting (rootUri : option Uri) (w w' : World) :
  themesSetting w' = themesSetting w ->
  getPathsFromConf rootUri w' = getPathsFromConf rootUri w.
Proof. unfold getPathsFromConf. by intros ->. Qed.

Lemma NoDup_getPathsFromConf (rootUri : option Uri) (w : World) :
  NoDup (getPathsFromConf rootUri w).
Proof.
  unfold getPathsFromConf.
  destruct (themesSetting w) as [[|p themes]|]; try apply NoDup_nil_2.
  apply NoDup_normalizePaths_acc, NoDup_nil_2.
Qed.

(** X1. [loadStyles] starts one read for every configured key that is
    not in the map, in the order of the keys, and none for a key that is
    in the map; it makes one promise per key and changes neither the map
    nor the subscriptions, so what [getRegisteredStyles] returns is the
    same before and after. *)
Theorem loadStyles_reads_missing_keys_once (rootUri rootUri' : option Uri)
    (w : World) :
  let keys := getPathsFromConf rootUri w in
  let w' := loadStyles rootUri w in
  fetchLog w' = fetchLog w ++ readsFor (observedThemes w) keys
  /\ NoDup (readsFor (observedThemes w) keys)
  /\ (forall k, (themeTypeOf k, k) ∈ readsFor (observedThemes w) keys <->
                k ∈ keys /\ observedThemes w !! k = None)
  /\ nextPromise w' = nextPromise w + length keys
  /\ observedThemes w' = observedThemes w
  /\ listeners w' = listeners w
  /\ getRegisteredStyles rootUri' w' = getRegisteredStyles rootUri' w.
Proof.
  cbv zeta. unfold loadStyles.
  destruct (registerTheme_calls_spec (getPathsFromConf rootUri w) w)
    as (Hconf & Hmap & Hls & _ & Hnp & _ & Hlog).
  split; [exact Hlog|]. split; [|split].
  - unfold readsFor. apply NoDup_fmap_2_strong.
    + intros x y _ _ [= ?]. assumption.
    + apply NoDup_filter, NoDup_getPathsFromConf.
  - intros k. unfold readsFor. rewrite list_elem_of_fmap. split.
    + intros (k' & [= _ <-] & [Hout Hin]%list_elem_of_filter).
      split; [exact Hin|]. by apply not_elem_of_dom.
    + intros [Hin Hmiss]. exists k. split; [reflexivity|].
      apply list_elem_of_filter. split; [|exact Hin].
      by apply not_elem_of_dom.
  - repeat (split; [assumption|]).
    unfold getRegisteredStyles.
    by rewrite (getPathsFromConf_setting _ _ _ Hconf), Hmap.
Qed.

(** X2. A read that fails touches nothing but its own promise: the
    promise is rejected, the map, the subscriptions and the log of reads
    stay as they are, and every other call in flight stays in flight. *)
Theorem failed_read_is_contained (w : World) (promise : nat) (p : Pending) :
  inFlight w !! promise = Some p ->
  let w' := fetchDone promise None w in
  settled w' !! promise = Some Rejected
  /\ inFlight w' !! promise = None
  /\ (forall q, q ≠ promise ->
        inFlight w' !! q = inFlight w !! q
        /\ settled w' !! q = settled w !! q)
  /\ observedThemes w' = observedThemes w
  /\ listeners w' = listeners w
  /\ fetchLog w' = fetchLog w.
Proof.
  intros Hp. cbv zeta. rewrite (fetchDone_rejected _ _ _ Hp).
  destruct (settle_spec promise (pendingThen p) Rejected
              (setInFlight (delete promise (inFlight w)) w))
    as (_ & Hmap & Hls & _ & Hfly & Hsettled & _ & Hlog & _).
  rewrite Hmap, Hls, Hfly, Hsettled, Hlog. cbn.
  rewrite lookup_insert_eq, lookup_delete_eq.
  repeat split.
  - by apply lookup_delete_ne.
  - by apply lookup_insert_ne.
Qed.

(** X3. A remote path is typed [Remote] even when it also looks like a
    virtual one, and the record of a remote theme gets no subscription:
    resolving it creates no listener, so no event ever refreshes it. *)
Theorem remote_theme_is_never_watched (w : World) (promise : nat)
    (themePath content : string) (k : Continuation) :
  isRemotePath themePath = true ->
  inFlight w !! promise
  = Some (mkPending themePath (themeTypeOf themePath) k) ->
  let w' := fetchDone promise (Some content) w in
  themeTypeOf themePath = Remote
  /\ listeners w' = listeners w
  /\ nextDisposable w' = nextDisposable w
  /\ observedThemes w' !! themePath
     = Some (mkTheme content None None themePath None Remote).
Proof.
  intros Hremote Hp. cbv zeta.
  assert (Htype : themeTypeOf themePath = Remote)
    by (unfold themeTypeOf; by rewrite Hremote).
  rewrite (fetchDone_fulfilled _ _ _ _ Hp). rewrite Htype.
  unfold registerTheme_resume. cbn [pendingPath pendingType pendingThen].
  cbn [watcherPatternOf]. destruct k; cbn; by rewrite lookup_insert_eq.
Qed.

Lemma disposeOptional_spec (o : option Disposable) (w : World) :
  let w' := disposeOptional o w in
  themesSetting w' = themesSetting w
  /\ observedThemes w' = observedThemes w
  /\ nextDisposable w' = nextDisposable w
  /\ inFlight w' = inFlight w /\ settled w' = settled w
  /\ nextPromise w' = nextPromise w
  /\ fetchLog w' = fetchLog w /\ refreshes w' = refreshes w
  /\ forall d l, listeners w' !! d = Some l <->
                 Some d ≠ o /\ listeners w !! d = Some l.
Proof.
  destruct o as [d'|]; cbn; repeat (split; [reflexivity|]); intros d l.
  - rewrite lookup_delete_Some. split; intros [Hne Hl]; split; congruence.
  - split; [by intros Hl|by intros [_ Hl]].
Qed.

Lemma heldBy_insert (m : gmap string Theme) (i : string) (x : Theme)
    (d : Disposable) :
  m !! i = None ->
  heldBy (<[i := x]> m) d <->
  onDidChange x = Some d \/ onDidDelete x = Some d \/ heldBy m d.
Proof.
  intros Hi. unfold heldBy. split.
  - intros (k & t & Hk & Hd). destruct (decide (i = k)) as [->|Hne].
    + rewrite lookup_insert_eq in Hk. injection Hk as ->. tauto.
    + rewrite lookup_insert_ne in Hk by assumption. right; right. eauto.
  - intros [Hd|[Hd|(k & t & Hk & Hd)]].
    + exists i, x. rewrite lookup_insert_eq. tauto.
    + exists i, x. rewrite lookup_insert_eq. tauto.
    + exists k, t. rewrite lookup_insert_ne by congruence. tauto.
Qed.

(** What [dispose] touches: the subscriptions the records hold, and the
    map. *)
Lemma dispose_frame (w : World) :
  let w' := dispose w in
  themesSetting w' = themesSetting w
  /\ nextDisposable w' = nextDisposable w
  /\ inFlight w' = inFlight w /\ settled w' = settled w
  /\ nextPromise w' = nextPromise w
  /\ fetchLog w' = fetchLog w /\ refreshes w' = refreshes w
  /\ forall d l, listeners w' !! d = Some l <->
                 listeners w !! d = Some l /\ ~ heldBy (observedThemes w) d.
Proof.
  cbv zeta. unfold dispose.
  cbn [themesSetting nextDisposable inFlight settled nextPromise fetchLog
       refreshes listeners setObservedThemes].
  apply (map_fold_weak_ind
           (fun r m =>
              themesSetting r = themesSetting w
              /\ nextDisposable r = nextDisposable w
              /\ inFlight r = inFlight w /\ settled r = settled w
              /\ nextPromise r = nextPromise w
              /\ fetchLog r = fetchLog w /\ refreshes r = refreshes w
              /\ forall d l, listeners r !! d = Some l <->
                             listeners w !! d = Some l /\ ~ heldBy m d)).
  - repeat split; try tauto.
    intros (k & t & Hk & _). by rewrite lookup_empty in Hk.
  - intros i x m r Hi (H1 & H2 & H3 & H4 & H5 & H6 & H7 & Hls).
    destruct (disposeOptional_spec (onDidChange x) r)
      as (A1 & _ & A2 & A3 & A4 & A5 & A6 & A7 & Als).
    destruct (disposeOptional_spec (onDidDelete x)
                (disposeOptional (onDidChange x) r))
      as (B1 & _ & B2 & B3 & B4 & B5 & B6 & B7 & Bls).
    rewrite B1, B2, B3, B4, B5, B6, B7, A1, A2, A3, A4, A5, A6, A7.
    repeat (split; [assumption|]).
    intros d l. rewrite Bls, Als, Hls, (heldBy_insert _ _ _ _ Hi).
    split.
    + intros (Hd & Hc & Hl & Hheld). split; [exact Hl|].
      intros [Hc'|[Hd'|Hheld']]; congruence || contradiction.
    + intros (Hl & Hheld). repeat split; try assumption.
      * intros Hd. apply Hheld. by right; left.
      * intros Hc. apply Hheld. by left.
      * intros Hm. apply Hheld. by right; right.
Qed.

(** X4. [dispose] empties the map and releases exactly the subscriptions
    that the records of the map hold: a subscription is live afterwards
    when it was live before and no record held it.  It leaves the calls in
    flight, the settled promises and the log of reads as they are, and a
    second [dispose] changes nothing. *)
Theorem dispose_releases_what_records_hold (w : World) :
  let w' := dispose w in
  observedThemes w' = ∅
  /\ (forall d l, listeners w' !! d = Some l <->
                  listeners w !! d = Some l /\ ~ heldBy (observedThemes w) d)
  /\ inFlight w' = inFlight w /\ settled w' = settled w
  /\ fetchLog w' = fetchLog w
  /\ dispose w' = w'.
Proof.
  cbv zeta. destruct (dispose_frame w)
    as (_ & _ & Hfly & Hsettled & _ & Hlog & _ & Hls).
  split; [reflexivity|]. split; [exact Hls|].
  repeat (split; [assumption|]).
  unfold dispose at 1.
  change (observedThemes (dispose w)) with (∅ : gmap string Theme).
  rewrite map_fold_empty. reflexivity.
Qed.

(** X5. [dispose] cancels no read.  When the read of a call that was in
    flight at [dispose] delivers afterwards, the record is stored in the
    emptied map, and with a pattern to watch it holds two subscriptions
    that are live. *)
Theorem dispose_does_not_cancel_reads (w : World) (promise : nat)
    (p : Pending) (content : string) :
  inFlight w !! promise = Some p ->
  let w' := fetchDone promise (Some content) (dispose w) in
  exists t,
    observedThemes w' = {[ pendingPath p := t ]}
    /\ css t = content
    /\ settled w' !! promise = Some (Fulfilled (markRegistered t))
    /\ forall pat,
         watcherPatternOf (pendingType p) (pendingPath p) = Some pat ->
         onDidChange t = Some (nextDisposable w)
         /\ onDidDelete t = Some (S (nextDisposable w))
         /\ listeners w' !! nextDisposable w
            = Some (mkListener Change pat (pendingPath p))
         /\ listeners w' !! S (nextDisposable w)
            = Some (mkListener Delete pat (pendingPath p)).
Proof.
  intros Hp. cbv zeta.
  destruct (dispose_frame w) as (_ & Hnd & Hfly & _).
  assert (Hp' : inFlight (dispose w) !! promise = Some p)
    by (by rewrite Hfly).
  rewrite (fetchDone_fulfilled _ _ _ _ Hp').
  destruct (registerTheme_resume_spec promise p content
              (setInFlight (delete promise (inFlight (dispose w)))
                 (dispose w)))
    as (t & Hmap & Hcss & _ & _ & _ & Hsettled & _ & _ & _ & _ & Hwatch).
  exists t. rewrite Hmap, Hsettled.
  cbn [observedThemes setInFlight nextDisposable] in *.
  change (observedThemes (dispose w)) with (∅ : gmap string Theme).
  rewrite insert_empty, lookup_insert_eq.
  repeat (split; [done|]).
  intros pat Hpat. rewrite Hpat in Hwatch.
  destruct Hwatch as (Hc & Hd & Hls & _).
  cbn [listeners setInFlight] in Hls. rewrite Hnd in Hc, Hd, Hls.
  rewrite Hls. repeat split; try assumption.
  - rewrite lookup_insert_ne by apply Nat.neq_succ_diag_l.
    apply lookup_insert_eq.
  - apply lookup_insert_eq.
Qed.

(** *** What every reachable world satisfies *)

Lemma records_frame (w w' : World) :
  recordsConsistent w ->
  (forall k t, observedThemes w' !! k = Some t ->
               observedThemes w !! k = Some t) ->
  nextDisposable w <= nextDisposable w' ->
  recordsConsistent w'.
Proof.
  intros HR Hsub Hnd k t Hk.
  destruct (HR k t (Hsub k t Hk)) as (? & ? & ? & ? & ? & Hbound).
  repeat (split; [assumption|]).
  intros d Hd. specialize (Hbound d Hd). unfold Disposable in *. lia.
Qed.

Lemma listeners_frame (w w' : World) :
  listenersConsistent w ->
  (forall d l, listeners w' !! d = Some l -> listeners w !! d = Some l) ->
  nextDisposable w <= nextDisposable w' ->
  listenersConsistent w'.
Proof.
  intros HL Hsub Hnd d l Hd.
  destruct (HL d l (Hsub d l Hd)) as [Hbound Hpat].
  split; [|exact Hpat]. unfold Disposable in *. lia.
Qed.

(** A call starts waiting for its read. *)
Lemma promises_start (w w' : World) (p : Pending) :
  promisesConsistent w ->
  pendingType p = themeTypeOf (pendingPath p) ->
  inFlight w' = <[nextPromise w := p]> (inFlight w) ->
  settled w' = settled w ->
  nextPromise w' = S (nextPromise w) ->
  promisesConsistent w'.
Proof.
  intros (P1 & P2 & P3) Htype Hfly Hsettled Hnp.
  unfold promisesConsistent. rewrite Hfly, Hsettled, Hnp.
  split; [|split].
  - intros i q Hi. destruct (decide (nextPromise w = i)) as [<-|Hne].
    + rewrite lookup_insert_eq in Hi. injection Hi as <-.
      split; [lia|]. split; [exact Htype|].
      destruct (settled w !! nextPromise w) as [o|] eqn:Ho; [|reflexivity].
      specialize (P2 _ _ Ho). lia.
    + rewrite lookup_insert_ne in Hi by assumption.
      destruct (P1 i q Hi) as (? & ? & ?). repeat split; [lia|done|done].
  - intros i o Ho. specialize (P2 i o Ho). lia.
  - intros i Hi. destruct (decide (nextPromise w = i)) as [<-|Hne].
    + left. rewrite lookup_insert_eq. by eexists.
    + rewrite lookup_insert_ne by assumption. apply P3. lia.
Qed.

(** A call is answered at once. *)
Lemma promises_answer (w w' : World) (o : Outcome) :
  promisesConsistent w ->
  inFlight w' = inFlight w ->
  settled w' = <[nextPromise w := o]> (settled w) ->
  nextPromise w' = S (nextPromise w) ->
  promisesConsistent w'.
Proof.
  intros (P1 & P2 & P3) Hfly Hsettled Hnp.
  unfold promisesConsistent. rewrite Hfly, Hsettled, Hnp.
  split; [|split].
  - intros i q Hi. destruct (P1 i q Hi) as (Hlt & ? & ?).
    rewrite lookup_insert_ne by lia. repeat split; [lia|done|done].
  - intros i o' Ho. destruct (decide (nextPromise w = i)) as [<-|Hne].
    + lia.
    + rewrite lookup_insert_ne in Ho by assumption.
      specialize (P2 i o' Ho). lia.
  - intros i Hi. destruct (decide (nextPromise w = i)) as [<-|Hne].
    + right. rewrite lookup_insert_eq. by eexists.
    + rewrite lookup_insert_ne by assumption. apply P3. lia.
Qed.

(** The read of a call in flight ends. *)
Lemma promises_finish (w w' : World) (promise : nat) (p : Pending)
    (o : Outcome) :
  promisesConsistent w ->
  inFlight w !! promise = Some p ->
  inFlight w' = delete promise (inFlight w) ->
  settled w' = <[promise := o]> (settled w) ->
  nextPromise w' = nextPromise w ->
  promisesConsistent w'.
Proof.
  intros (P1 & P2 & P3) Hp Hfly Hsettled Hnp.
  unfold promisesConsistent. rewrite Hfly, Hsettled, Hnp.
  split; [|split].
  - intros i q [Hne Hi]%lookup_delete_Some.
    destruct (P1 i q Hi) as (? & ? & ?).
    rewrite lookup_insert_ne by assumption. by repeat split.
  - intros i o' Ho. destruct (decide (promise = i)) as [<-|Hne].
    + by destruct (P1 promise p Hp).
    + rewrite lookup_insert_ne in Ho by assumption. by apply (P2 i o').
  - intros i Hi. destruct (decide (promise = i)) as [<-|Hne].
    + right. rewrite lookup_insert_eq. by eexists.
    + rewrite lookup_delete_ne, lookup_insert_ne by assumption.
      by apply P3.
Qed.

Lemma emptyWorld_consistent (themes : option (list ConfEntry)) :
  consistent (emptyWorld themes).
Proof.
  split; [|split; [|split; [|split]]].
  - intros k t Hk. cbn in Hk. by rewrite lookup_empty in Hk.
  - intros d l Hd. cbn in Hd. by rewrite lookup_empty in Hd.
  - intros i p Hi. cbn in Hi. by rewrite lookup_empty in Hi.
  - intros i o Hi. cbn in Hi. by rewrite lookup_empty in Hi.
  - intros i Hi. cbn in Hi. lia.
Qed.

Lemma registerTheme_call_consistent (k : Continuation) (themePath : string)
    (w : World) :
  consistent w -> consistent (registerTheme_call k themePath w).
Proof.
  intros (HR & HL & HP).
  destruct (registerTheme_call_spec k themePath w)
    as (_ & Hmap & Hls & Hnd & Hnp & Hcase).
  split; [|split].
  - apply (records_frame w); [assumption| |by rewrite Hnd].
    intros k' t. by rewrite Hmap.
  - apply (listeners_frame w); [assumption| |by rewrite Hnd].
    intros d l. by rewrite Hls.
  - destruct (observedThemes w !! themePath) as [t|].
    + destruct Hcase as (Hfly & Hsettled & _).
      by apply (promises_answer w _ (Fulfilled t)).
    + destruct Hcase as (Hfly & Hsettled & _).
      by apply (promises_start w _
                  (mkPending themePath (themeTypeOf themePath) k)).
Qed.

Lemma loadStyles_consistent (rootUri : option Uri) (w : World) :
  consistent w -> consistent (loadStyles rootUri w).
Proof.
  unfold loadStyles. generalize (getPathsFromConf rootUri w) as ks.
  intros ks. revert w. induction ks as [|k ks IH]; intros w Hw.
  - exact Hw.
  - cbn [fold_left]. by apply IH, registerTheme_call_consistent.
Qed.

Lemma fetchDone_consistent (promise : nat) (result : option string)
    (w : World) :
  consistent w -> consistent (fetchDone promise result w).
Proof.
  intros (HR & HL & HP).
  destruct (inFlight w !! promise) as [p|] eqn:Hp;
    [|unfold fetchDone; by rewrite Hp].
  destruct (proj1 HP promise p Hp) as (_ & Htype & _).
  destruct result as [content|].
  - rewrite (fetchDone_fulfilled _ _ _ _ Hp).
    destruct (registerTheme_resume_spec promise p content
                (setInFlight (delete promise (inFlight w)) w))
      as (t & Hmap & _ & Hpath & Htype' & Hreg & Hsettled & _ & Hfly & _
          & Hnp & Hwatch).
    set (w' := registerTheme_resume _ _ _ _) in *.
    cbn [observedThemes listeners nextDisposable inFlight settled
         nextPromise setInFlight] in *.
    assert (Hnd : nextDisposable w <= nextDisposable w').
    { destruct (watcherPatternOf _ _);
        [destruct Hwatch as (_ & _ & _ & ->)
        |destruct Hwatch as (_ & _ & _ & ->)]; unfold Disposable; lia. }
    split; [|split].
    + intros k' t' Hk'. rewrite Hmap in Hk'.
      destruct (decide (pendingPath p = k')) as [<-|Hne].
      * rewrite lookup_insert_eq in Hk'. injection Hk' as <-.
        rewrite <- Htype. split; [exact Hpath|].
        split; [exact Htype'|]. split; [exact Hreg|].
        destruct (watcherPatternOf (pendingType p) (pendingPath p)).
        -- destruct Hwatch as (Hc & Hd & _ & Hnd').
           rewrite Hc, Hd, Hnd'. split; [reflexivity|].
           split; [split; by eexists|].
           intros d [= <-]. unfold Disposable. lia.
        -- destruct Hwatch as (Hc & Hd & _). rewrite Hc, Hd.
           split; [reflexivity|]. split; [|done].
           split; by intros [? [=]].
      * rewrite lookup_insert_ne in Hk' by assumption.
        destruct (HR k' t' Hk') as (? & ? & ? & ? & ? & Hbound).
        repeat (split; [assumption|]).
        intros d Hd. specialize (Hbound d Hd). unfold Disposable in *. lia.
    + intros d l Hd.
      destruct (watcherPatternOf (pendingType p) (pendingPath p))
        as [pat|] eqn:Hpat.
      * destruct Hwatch as (_ & _ & Hls & Hnd').
        rewrite Hls in Hd. rewrite Hnd'.
        destruct (decide (S (nextDisposable w) = d)) as [<-|Hne1].
        { rewrite lookup_insert_eq in Hd. injection Hd as <-.
          cbn. rewrite <- Htype. split; [unfold Disposable; lia|done]. }
        rewrite lookup_insert_ne in Hd by assumption.
        destruct (decide (nextDisposable w = d)) as [<-|Hne2].
        { rewrite lookup_insert_eq in Hd. injection Hd as <-.
          cbn. rewrite <- Htype. split; [unfold Disposable; lia|done]. }
        rewrite lookup_insert_ne in Hd by assumption.
        destruct (HL d l Hd) as [Hbound Hp'].
        split; [unfold Disposable in *; lia|exact Hp'].
      * destruct Hwatch as (_ & _ & Hls & Hnd').
        rewrite Hls in Hd. rewrite Hnd'. by apply HL.
    + by apply (promises_finish w w' promise p
                  (Fulfilled (markRegistered t))).
  - rewrite (fetchDone_rejected _ _ _ Hp).
    destruct (settle_spec promise (pendingThen p) Rejected
                (setInFlight (delete promise (inFlight w)) w))
      as (_ & Hmap & Hls & Hnd & Hfly & Hsettled & Hnp & _).
    split; [|split].
    + apply (records_frame w); [assumption| |by rewrite Hnd].
      intros k' t'. by rewrite Hmap.
    + apply (listeners_frame w); [assumption| |by rewrite Hnd].
      intros d l. by rewrite Hls.
    + by apply (promises_finish w _ promise p Rejected).
Qed.

Lemma fire_consistent (e : EventKind) (d : Disposable) (w : World) :
  consistent w -> consistent (fire e d w).
Proof.
  intros Hw. pose proof Hw as (HR & HL & HP). unfold fire.
  destruct (listeners w !! d) as [l|]; [|exact Hw].
  destruct e, (listenerKind l); try exact Hw.
  - destruct (changeHandler_spec d (listenerPath l) w)
      as (_ & Hmap & Hls & Hnd & Hfly & Hsettled & Hnp & _).
    split; [|split].
    + apply (records_frame w); [assumption| |by rewrite Hnd].
      intros k t. rewrite Hmap. by intros [_ ?]%lookup_delete_Some.
    + apply (listeners_frame w); [assumption| |by rewrite Hnd].
      intros d' l'. rewrite Hls. by intros [_ ?]%lookup_delete_Some.
    + by apply (promises_start w _
                  (mkPending (listenerPath l)
                     (themeTypeOf (listenerPath l)) ThenRefresh)).
  - split; [|split].
    + apply (records_frame w); [assumption| |reflexivity].
      intros k t. cbn. by intros [_ ?]%lookup_delete_Some.
    + apply (listeners_frame w); [assumption| |reflexivity].
      intros d' l'. cbn. by intros [_ ?]%lookup_delete_Some.
    + exact HP.
Qed.

Lemma dispose_consistent (w : World) : consistent w -> consistent (dispose w).
Proof.
  intros (HR & HL & HP).
  destruct (dispose_frame w)
    as (_ & Hnd & Hfly & Hsettled & Hnp & _ & _ & Hls).
  split; [|split].
  - intros k t Hk.
    change (observedThemes (dispose w)) with (∅ : gmap string Theme) in Hk.
    by rewrite lookup_empty in Hk.
  - apply (listeners_frame w); [assumption| |by rewrite Hnd].
    intros d l Hd. by apply Hls in Hd as [? _].
  - unfold promisesConsistent. by rewrite Hfly, Hsettled, Hnp.
Qed.

Lemma exec_consistent (w : World) (a : Action) :
  consistent w -> consistent (exec w a).
Proof.
  destruct a; cbn [exec].
  - apply loadStyles_consistent.
  - apply fetchDone_consistent.
  - apply fire_consistent.
  - apply dispose_consistent.
Qed.

Lemma run_consistent (w : World) (actions : list Action) :
  consistent w -> consistent (run w actions).
Proof.
  unfold run. revert w. induction actions as [|a actions IH]; intros w Hw.
  - exact Hw.
  - cbn [fold_left]. by apply IH, exec_consistent.
Qed.

Lemma reachable_consistent (w : World) : reachable w -> consistent w.
Proof.
  intros (themes & actions & ->). apply run_consistent, emptyWorld_consistent.
Qed.

(** X6. In every world that can be reached from an empty cache, a
    record of the map is filed under its own path, has the type of that
    path and no [registered] mark, and holds either no subscription or the
    two that were made together; it holds them exactly when its path has
    a pattern to watch, so the record of a local file always does. *)
Theorem reachable_records (w : World) (k : string) (t : Theme) :
  reachable w ->
  observedThemes w !! k = Some t ->
  path t = k /\ type t = themeTypeOf k /\ registered t = None
  /\ onDidDelete t = S <$> onDidChange t
  /\ (is_Some (onDidChange t) <->
      is_Some (watcherPatternOf (themeTypeOf k) k))
  /\ (themeTypeOf k = File -> is_Some (onDidChange t))
  /\ (themeTypeOf k = Remote -> onDidChange t = None).
Proof.
  intros (HR & _)%reachable_consistent Hk.
  destruct (HR k t Hk) as (Hpath & Htype & Hreg & Hdel & Hwatch & _).
  repeat (split; [assumption|]). split.
  - intros Hfile. apply Hwatch. rewrite Hfile. by eexists.
  - intros Hremote. rewrite Hremote in Hwatch. cbn in Hwatch.
    destruct (onDidChange t) as [d|]; [|reflexivity].
    destruct (proj1 Hwatch) as [? [=]]. by eexists.
Qed.

(** In every reachable world the promises made so far are exactly
    those that are in flight or settled, and no promise is both: a call
    of [registerTheme] is never lost and never answered twice. *)
Theorem reachable_promises (w : World) (i : nat) :
  reachable w ->
  (i < nextPromise w <->
   is_Some (inFlight w !! i) \/ is_Some (settled w !! i))
  /\ ~ (is_Some (inFlight w !! i) /\ is_Some (settled w !! i)).
Proof.
  intros (_ & _ & P1 & P2 & P3)%reachable_consistent. split; [split|].
  - apply P3.
  - intros [[p Hp]|[o Ho]]; [by destruct (P1 i p Hp)|by apply (P2 i o)].
  - intros [[p Hp] [o Ho]]. destruct (P1 i p Hp) as (_ & _ & Hnone).
    congruence.
Qed.

(** In every reachable world a live subscription watches the
    pattern of the path its listener holds, and the two handles that the
    next resolution will make are new: no live subscription and no
    record of the map has them. *)
Theorem reachable_listeners (w : World) :
  reachable w ->
  (forall d l,
     listeners w !! d = Some l ->
     watcherPatternOf (themeTypeOf (listenerPath l)) (listenerPath l)
     = Some (listenerPattern l))
  /\ listeners w !! nextDisposable w = None
  /\ listeners w !! S (nextDisposable w) = None
  /\ ~ heldBy (observedThemes w) (nextDisposable w)
  /\ ~ heldBy (observedThemes w) (S (nextDisposable w)).
Proof.
  intros (HR & HL & _)%reachable_consistent.
  assert (Hfree : forall d, nextDisposable w <= d -> listeners w !! d = None).
  { intros d Hd. destruct (listeners w !! d) as [l|] eqn:Hl; [|reflexivity].
    destruct (HL d l Hl) as [Hlt _]. unfold Disposable in *. lia. }
  assert (Hnone : forall d, nextDisposable w <= d ->
                            ~ heldBy (observedThemes w) d).
  { intros d Hd (k & t & Hk & Hheld).
    destruct (HR k t Hk) as (_ & _ & _ & Hdel & _ & Hbound).
    destruct (onDidChange t) as [c|]; cbn in Hdel.
    - specialize (Hbound c eq_refl). rewrite Hdel in Hheld.
      destruct Hheld as [[= <-]|[= <-]]; unfold Disposable in *; lia.
    - rewrite Hdel in Hheld. by destruct Hheld. }
  split; [intros d l Hl; by destruct (HL d l Hl)|].
  split; [apply Hfree; lia|]. split; [apply Hfree; lia|].
  split; apply Hnone; unfold Disposable; lia.
Qed.

(** *** The two listeners of a watched key *)





End CacheMore.

(** ** More on [normalizePaths] *)

Lemma prefix_empty (s : string) : String.prefix "" s = true.
Proof. by destruct s. Qed.

(** Whether a proper segment followed by more text begins with two dots
    is decided by the segment. *)
Lemma startsWith_dotdot_append (seg rest : string) :
  seg ≠ "" -> seg ≠ "." ->
  Js.startsWith (seg +:+ rest) ".." = Js.startsWith seg "..".
Proof.
  intros Hempty Hdot. unfold Js.startsWith.
  destruct seg as [|a [|b seg]]; [done| |].
  - change (String a "" +:+ rest) with (String a rest). cbn -[ascii_dec].
    destruct (ascii_dec "." a) as [<-|_]; [done|reflexivity].
  - change (String a (String b seg) +:+ rest)
      with (String a (String b (seg +:+ rest))). cbn -[ascii_dec].
    destruct (ascii_dec "." a), (ascii_dec "." b); try reflexivity.
    by rewrite !prefix_empty.
Qed.

Lemma join_startsWith_dotdot (d : list string) :
  Forall Path.properSegment d ->
  Js.startsWith (Js.join "/" d) ".." = Js.startsWith (hd "" d) "..".
Proof.
  intros Hd. destruct Hd as [|x d (Hempty & Hdot & _) Hd]; [reflexivity|].
  destruct d as [|y d]; [reflexivity|].
  change (Js.join "/" (x :: y :: d))
    with (x +:+ "/" +:+ Js.join "/" (y :: d)).
  by apply startsWith_dotdot_append.
Qed.

Lemma stripCommon_spec (a b : list string) :
  exists common,
    a = common ++ (Path.stripCommon a b).1
    /\ b = common ++ (Path.stripCommon a b).2.
Proof.
  revert b. induction a as [|x a IH]; intros b.
  - by exists [].
  - destruct b as [|y b]; [by exists []|]. cbn.
    destruct (decide (x = y)) as [<-|]; [|by exists []].
    destruct (IH b) as (common & Ha & Hb). exists (x :: common).
    cbn. by rewrite <- Ha, <- Hb.
Qed.

Lemma stripCommon_app (a d : list string) :
  Path.stripCommon a (a ++ d) = ([], d).
Proof.
  induction a as [|x a IH]; [by destruct d|].
  cbn. by destruct (decide (x = x)).
Qed.

Lemma segments_proper (cwd p : string) :
  Forall Path.properSegment (Path.segments cwd p).
Proof.
  unfold Path.segments. apply normalizeSegments_proper.
  repeat (case_match || apply Forall_app_2 || apply Forall_nil_2
          || apply split_without_separator).
Qed.

(** The guard of [normalizePaths], exactly: the relative path does not
    begin with two dots when the target lies within the base and the
    first segment below the base does not begin with two dots. *)
Lemma relative_guard_exact (cwd from to : string) :
  Js.startsWith (Path.relative cwd from to) ".." = false <->
  exists d,
    Path.segments cwd to = Path.segments cwd from ++ d
    /\ Js.startsWith (hd "" d) ".." = false.
Proof.
  unfold Path.relative.
  destruct (stripCommon_spec (Path.segments cwd from) (Path.segments cwd to))
    as (common & Hfrom & Hto).
  split.
  - destruct (Path.stripCommon _ _) as [[|u up] down] eqn:E;
      cbn [fst snd] in *.
    + cbn [length replicate app]. intros Hguard. exists down.
      rewrite app_nil_r in Hfrom.
      split; [by rewrite Hto, Hfrom at 1|].
      rewrite <- join_startsWith_dotdot; [done|].
      pose proof (segments_proper cwd to) as Hproper.
      rewrite Hto in Hproper. by apply Forall_app in Hproper as [_ ?].
    + cbn [length]. by rewrite join_dotdot.
  - intros (d & Hd & Hguard). rewrite Hd, stripCommon_app.
    cbn [length replicate app]. rewrite join_startsWith_dotdot; [done|].
    pose proof (segments_proper cwd to) as Hproper.
    rewrite Hd in Hproper. by apply Forall_app in Hproper as [_ ?].
Qed.

Section NormalizerMore.
Context `{Host}.

Lemma elem_of_normalizePaths_acc (rootUri : option Uri)
    (paths : list ConfEntry) (acc : list string) (key : string) :
  key ∈ fold_left (normalizePath rootUri) paths acc <->
  key ∈ acc \/ exists e, e ∈ paths /\ keyOf rootUri e = Some key.
Proof.
  revert acc. induction paths as [|e paths IH]; intros acc.
  - cbn. split; [tauto|]. intros [?|(e & He & _)]; [done|].
    by apply elem_of_nil in He.
  - cbn [fold_left]. rewrite IH, normalizePath_keyOf. split.
    + intros [Hacc|(e' & He' & Hkey)].
      * destruct (keyOf rootUri e) as [k|] eqn:Hk; [|tauto].
        apply elem_of_setAdd in Hacc as [->|?]; [|tauto].
        right. exists e. split; [left|exact Hk].
      * right. exists e'. split; [by right|exact Hkey].
    + intros [Hacc|(e' & [->|He']%elem_of_cons & Hkey)].
      * left. destruct (keyOf rootUri e); [|exact Hacc].
        apply elem_of_setAdd. tauto.
      * left. rewrite Hkey. apply elem_of_setAdd. tauto.
      * right. by exists e'.
Qed.

Lemma elem_of_normalizePaths (rootUri : option Uri)
    (paths : list ConfEntry) (key : string) :
  key ∈ normalizePaths paths rootUri <->
  exists e, e ∈ paths /\ keyOf rootUri e = Some key.
Proof.
  unfold normalizePaths. rewrite elem_of_normalizePaths_acc.
  split; [|tauto]. intros [Hnil|?]; [|assumption].
  by apply elem_of_nil in Hnil.
Qed.

Lemma keyOf_remote (rootUri : option Uri) (p : string) :
  isRemotePath p = true -> keyOf rootUri (CString p) = Some p.
Proof. intros Hp. unfold keyOf, normalizePath. by rewrite Hp. Qed.

Lemma keyOf_no_base (e : ConfEntry) (key : string) :
  keyOf None e = Some key -> e = CString key /\ isRemotePath key = true.
Proof.
  unfold keyOf, normalizePath. destruct e as [p|]; [|discriminate].
  destruct (isRemotePath p) eqn:Hp; [|discriminate].
  cbn. by intros [= <-].
Qed.

(** The key of a reference that is not remote, with a base of scheme
    [file]. *)
Lemma keyOf_file (rootUri : Uri) (p key : string) :
  scheme rootUri = "file" -> isRemotePath p = false ->
  keyOf (Some rootUri) (CString p) = Some key <->
  key = Path.resolve cwd (fsPath rootUri) p
  /\ exists d,
       Path.resolveSegments cwd (fsPath rootUri) p
       = Path.segments cwd (fsPath rootUri) ++ d
       /\ Js.startsWith (hd "" d) ".." = false.
Proof.
  intros Hfile Hremote. unfold keyOf, normalizePath.
  rewrite Hremote. destruct (decide (scheme rootUri = "file")); [|done].
  cbv zeta. rewrite <- (segments_resolve cwd (fsPath rootUri) p).
  rewrite <- relative_guard_exact.
  destruct (Js.startsWith _ "..") eqn:Hguard; cbn.
  - split; [discriminate|]. by intros [_ ?].
  - split; [by intros [= <-]|]. by intros [-> _].
Qed.

(** X9. With a base of scheme [file] the result of [normalizePaths]
    holds exactly the remote references, as they are, and the resolved
    paths of the other references that lie within the base with a first
    segment below the base that does not begin with two dots.  So a file
    of the base directory whose name begins with two dots is left out
    although it lies within the base. *)
Theorem normalizePaths_file_exact (paths : list ConfEntry) (rootUri : Uri)
    (key : string) :
  scheme rootUri = "file" ->
  key ∈ normalizePaths paths (Some rootUri) <->
  exists p,
    CString p ∈ paths
    /\ ((isRemotePath p = true /\ key = p)
        \/ (isRemotePath p = false
            /\ key = Path.resolve cwd (fsPath rootUri) p
            /\ exists d,
                 Path.resolveSegments cwd (fsPath rootUri) p
                 = Path.segments cwd (fsPath rootUri) ++ d
                 /\ Js.startsWith (hd "" d) ".." = false)).
Proof.
  intros Hfile. rewrite elem_of_normalizePaths. split.
  - intros ([p|] & He & Hkey); [|discriminate Hkey].
    exists p. split; [exact He|].
    destruct (isRemotePath p) eqn:Hremote.
    + left. rewrite (keyOf_remote _ _ Hremote) in Hkey.
      injection Hkey as <-. by split.
    + right. split; [reflexivity|]. by apply keyOf_file.
  - intros (p & He & [[Hremote ->]|(Hremote & Hkey)]);
      exists (CString p); (split; [exact He|]).
    + by apply keyOf_remote.
    + by apply keyOf_file.
Qed.

(** X10. A remote reference is a key of the result whatever the base is,
    also when there is none; and without a base the result holds nothing
    but the remote references of the setting, so it is empty when the
    setting names no remote reference. *)
Theorem remote_references_need_no_base (paths : list ConfEntry) :
  (forall rootUri p,
     CString p ∈ paths -> isRemotePath p = true ->
     p ∈ normalizePaths paths rootUri)
  /\ (forall key,
        key ∈ normalizePaths paths None <->
        CString key ∈ paths /\ isRemotePath key = true)
  /\ ((forall p, CString p ∈ paths -> isRemotePath p = false) ->
      normalizePaths paths None = []).
Proof.
  assert (Hnone : forall key,
            key ∈ normalizePaths paths None <->
            CString key ∈ paths /\ isRemotePath key = true).
  { intros key. rewrite elem_of_normalizePaths. split.
    - by intros (e & He & [-> ?]%keyOf_no_base).
    - intros [Hkey Hr]. exists (CString key).
      split; [exact Hkey|by apply keyOf_remote]. }
  split; [|split; [exact Hnone|]].
  - intros rootUri p Hp Hremote. apply elem_of_normalizePaths.
    exists (CString p). split; [exact Hp|by apply keyOf_remote].
  - intros Hlocal. destruct (normalizePaths paths None) as [|key keys] eqn:Hkeys;
      [reflexivity|].
    destruct (proj1 (Hnone key)) as [Hkey Hremote]; [by left|].
    rewrite (Hlocal key Hkey) in Hremote. discriminate.
Qed.

Lemma normalizePaths_absorb (rootUri : option Uri) (paths : list ConfEntry)
    (acc : list string) :
  (forall e key, e ∈ paths -> keyOf rootUri e = Some key -> key ∈ acc) ->
  fold_left (normalizePath rootUri) paths acc = acc.
Proof.
  induction paths as [|e paths IH]; intros Hin; [reflexivity|].
  cbn [fold_left]. rewrite normalizePath_keyOf.
  destruct (keyOf rootUri e) as [key|] eqn:Hkey.
  - unfold setAdd. destruct (decide (key ∈ acc)) as [_|Hout].
    + apply IH. intros e' key' He'. apply Hin. by right.
    + destruct Hout. apply (Hin e key); [left|exact Hkey].
  - apply IH. intros e' key' He'. apply Hin. by right.
Qed.

(** X11. The result is a set of keys in the order of first appearance:
    references that are given again, anywhere later in the setting, and
    entries that are no strings change nothing. *)
Theorem normalizePaths_ignores_repeats (paths again : list ConfEntry)
    (rootUri : option Uri) :
  (forall e, e ∈ again -> e ∈ paths \/ e = COther) ->
  normalizePaths (paths ++ again) rootUri = normalizePaths paths rootUri.
Proof.
  intros Hagain. unfold normalizePaths. rewrite fold_left_app.
  apply normalizePaths_absorb. intros e key He Hkey.
  apply elem_of_normalizePaths_acc. right.
  destruct (Hagain e He) as [Hin| ->]; [by exists e|discriminate Hkey].
Qed.

End NormalizerMore.

(** ** More on size presets *)

Lemma names_of_sizes (m : list (string * SizePreset)) :
  Forall (fun kv => name kv.2 = kv.1) m -> name <$> m.*2 = m.*1.
Proof.
  induction 1 as [|[k v] m Hkv Hm IH]; [reflexivity|].
  cbn in *. by rewrite Hkv, IH.
Qed.

Lemma getSizePresets_names (lines : list string) :
  name <$> getSizePresets (Some lines) = (sizesOf lines).*1.
Proof.
  unfold getSizePresets. cbn [default].
  apply names_of_sizes, sizesOf_wellFormed.
Qed.

(** X13. [getSizePresets] never returns two presets of one name. *)
Theorem getSizePresets_names_unique (themeMeta : option (list string)) :
  NoDup (name <$> getSizePresets themeMeta).
Proof.
  destruct themeMeta as [lines|].
  - rewrite getSizePresets_names. apply sizesOf_wellFormed.
  - apply NoDup_nil_2.
Qed.

(** X14. The presets come in the order in which their names were first
    defined: a line that defines a name again leaves the name where it
    is, a line that defines a new name (also one that was removed before)
    puts it last, and a line that removes a name takes it out. *)
Theorem getSizePresets_order (lines : list string) (line : string) :
  let names := name <$> getSizePresets (Some lines) in
  name <$> getSizePresets (Some (lines ++ [line])) =
    match Js.splitSpaces line with
    | [n; w; h] => if decide (n ∈ names) then names else names ++ [n]
    | [n; flag] =>
        if decide (flag = "false") then filter (fun k => k ≠ n) names
        else names
    | _ => names
    end.
Proof.
  cbv zeta. rewrite !getSizePresets_names, sizesOf_snoc. unfold applySize.
  destruct (Js.splitSpaces line) as [|n [|w [|h [|? ?]]]]; try reflexivity.
  - destruct (decide (w = "false")); [|reflexivity]. apply keys_mapDelete.
  - apply keys_mapSet.
Qed.

Lemma splitSpaces_go_trailing (b : bool) (s : string) (a : ascii) :
  Js.isSpace a = true ->
  exists init,
    Js.splitSpaces_go b (s +:+ String a "") = init ++ [""]
    /\ (b = false -> init ≠ []).
Proof.
  intros Ha. revert b. induction s as [|c s IH]; intros b.
  - change ("" +:+ String a "") with (String a "").
    cbn [Js.splitSpaces_go]. rewrite Ha.
    destruct b; [by exists []|by exists [""]].
  - change (String c s +:+ String a "") with (String c (s +:+ String a "")).
    cbn [Js.splitSpaces_go]. destruct (Js.isSpace c).
    + destruct (IH true) as (init & -> & _).
      destruct b; [by exists init|exists ("" :: init); by split].
    + destruct (IH false) as (init & -> & Hinit).
      destruct init as [|x init]; [by destruct Hinit|].
      exists (String c x :: init). by split.
Qed.

(** X15. White space around a metadata line is not trimmed.  A line that
    begins with white space has an empty first token, so it can define or
    remove only the preset with the empty name; a line that ends with
    white space has an empty last token, so it removes nothing: under
    every name the map holds what it held, or a preset that the line has
    defined, whose height is empty. *)
Theorem getSizePresets_untrimmed (lines : list string) (a : ascii)
    (rest k : string) :
  Js.isSpace a = true ->
  (k ≠ "" ->
   mapGet k (sizesOf (lines ++ [String a rest]))
   = mapGet k (sizesOf lines))
  /\ (mapGet k (sizesOf (lines ++ [rest +:+ String a ""]))
      = mapGet k (sizesOf lines)
      \/ exists width,
           mapGet k (sizesOf (lines ++ [rest +:+ String a ""]))
           = Some (mkSizePreset "" k width)).
Proof.
  intros Ha. split.
  - intros Hk. rewrite sizesOf_snoc. unfold applySize, Js.splitSpaces.
    cbn [Js.splitSpaces_go]. rewrite Ha.
    destruct (Js.splitSpaces_go true rest) as [|a1 [|a2 [|? ?]]];
      try reflexivity.
    + destruct (decide (a1 = "false")); [|reflexivity].
      rewrite mapGet_mapDelete. by destruct (decide (k = "")).
    + rewrite mapGet_mapSet. by destruct (decide (k = "")).
  - rewrite sizesOf_snoc. unfold applySize, Js.splitSpaces.
    destruct (splitSpaces_go_trailing false rest a Ha) as (init & -> & _).
    destruct init as [|n [|w [|h [|? ?]]]]; cbn [app]; try by left.
    rewrite mapGet_mapSet. destruct (decide (k = n)) as [->|_];
      [right; by exists w|by left].
Qed.

(** ** More on the workspace proxy server *)

Section ProxyMore.
Context `{Host}.

(** Once the URL is parsed and mapped into the workspace, the handler
    answers 200 exactly when [stat] succeeds, the resource is no directory
    and the read succeeds, and 404 in every other case. *)
Lemma handleGet_status (fs : FileSystem) (workspaceFolderUri : Uri)
    (url : Url) :
  let vscodeUri := vscodeUriOf workspaceFolderUri url in
  let response := handleGet fs workspaceFolderUri url in
  (status response = 200%Z <->
   exists fileStat content,
     fsStat fs vscodeUri = inl fileStat
     /\ Z.land (fileType fileStat) FileType_Directory = 0%Z
     /\ fsReadFile fs vscodeUri = inl content
     /\ body response = Buffer content)
  /\ (status response = 200%Z
      \/ status response = 404%Z /\ body response = Text "Not found")
  /\ (extname (pathname url) ≠ "" ->
      headers response !! "Content-Type"
      = Some (mimeLookup (extname (pathname url)))).
Proof.
  cbv zeta. unfold handleGet.
  assert (Htyped :
    extname (pathname url) ≠ "" ->
    (if decide (extname (pathname url) = "") then ∅
     else {[ "Content-Type" := mimeLookup (extname (pathname url)) ]}
       : gmap string string) !! "Content-Type"
    = Some (mimeLookup (extname (pathname url)))).
  { intros Hext. destruct (decide _); [done|apply lookup_singleton_eq]. }
  destruct (fsStat fs _) as [fileStat|e] eqn:Hstat.
  - destruct (Z.land (fileType fileStat) FileType_Directory =? 0)%Z
      eqn:Hdir.
    + apply Z.eqb_eq in Hdir.
      destruct (fsReadFile fs _) as [content|e] eqn:Hread;
        cbn [status body headers].
      * split; [|split].
        -- split; [intros _; by exists fileStat, content|done].
        -- by left.
        -- intros Hext. rewrite !lookup_insert_ne by done. by apply Htyped.
      * split; [|split].
        -- split; [done|]. by intros (? & ? & _ & _ & [=] & _).
        -- by right.
        -- intros Hext. rewrite !lookup_insert_ne by done. by apply Htyped.
    + apply Z.eqb_neq in Hdir. cbn [status body headers].
      split; [|split].
      * split; [done|]. intros (st & ? & [= <-] & Hfile & _). contradiction.
      * by right.
      * intros Hext. rewrite !lookup_insert_ne by done. by apply Htyped.
  - cbn [status body headers]. split; [|split].
    + split; [done|]. by intros (? & ? & [=] & _).
    + by right.
    + exact Htyped.
Qed.

(** X18. The handler parses the URL of the request and maps it into the
    workspace before its [try]: when one of the two throws, the request
    gets no response at all.  Otherwise the handler answers 200 exactly
    when [stat] succeeds, the resource is no directory and the read
    succeeds; in every other case, a failing read included, it answers
    404 with the text [Not found].  The body of a 200 is what the read
    returned, and whatever the answer is, a path with an extension has
    the [Content-Type] of the extension on the response. *)
Theorem handleRequest_status_exact
    (parseUrl : string -> string -> option Url) (fs : FileSystem)
    (workspaceFolderUri : Uri) (reqUrl host : string) :
  let parsed := parseUrl reqUrl ("http://" +:+ host) in
  let answer := handleRequest parseUrl fs workspaceFolderUri reqUrl host in
  (answer = None <->
   parsed = None
   \/ exists url,
        parsed = Some url
        /\ uriWithThrows (vscodeUriOf workspaceFolderUri url) = true)
  /\ (forall response,
        answer = Some response ->
        exists url,
          parsed = Some url
          /\ uriWithThrows (vscodeUriOf workspaceFolderUri url) = false
          /\ let vscodeUri := vscodeUriOf workspaceFolderUri url in
             (status response = 200%Z <->
              exists fileStat content,
                fsStat fs vscodeUri = inl fileStat
                /\ Z.land (fileType fileStat) FileType_Directory = 0%Z
                /\ fsReadFile fs vscodeUri = inl content
                /\ body response = Buffer content)
             /\ (status response = 200%Z
                 \/ status response = 404%Z
                    /\ body response = Text "Not found")
             /\ (extname (pathname url) ≠ "" ->
                 headers response !! "Content-Type"
                 = Some (mimeLookup (extname (pathname url))))).
Proof.
  cbv zeta. unfold handleRequest.
  destruct (parseUrl reqUrl ("http://" +:+ host)) as [url|].
  - destruct (uriWithThrows (vscodeUriOf workspaceFolderUri url)) eqn:Hwith.
    + split.
      * split; [intros _; right; by exists url|done].
      * by intros response [=].
    + split.
      * split; [done|]. intros [[=]|(url' & [= <-] & Hthrows)]. congruence.
      * intros response [= <-]. exists url. split; [reflexivity|].
        split; [exact Hwith|]. exact (handleGet_status fs workspaceFolderUri url).
  - split.
    + split; [intros _; by left|done].
    + by intros response [=].
Qed.

(** X19. The handler takes nothing but the scheme and the authority from
    the workspace folder: the path of the request replaces the path of
    the folder, so two folders of one file system get the same answer to
    every request, and the path of a request is read from the root of
    that file system. *)
Theorem handleGet_ignores_folder_path (fs : FileSystem)
    (folder folder' : Uri) (url : Url) :
  scheme folder = scheme folder' ->
  authority folder = authority folder' ->
  uriPath (vscodeUriOf folder url) = pathname url
  /\ handleGet fs folder url = handleGet fs folder' url.
Proof.
  intros Hscheme Hauthority. split; [reflexivity|].
  unfold handleGet, vscodeUriOf. by rewrite Hscheme, Hauthority.
Qed.

End ProxyMore.

(** ** Downloads of remote themes *)

Section DownloadFacts.
Context `{Host}.

(** X17. A remote theme is registered only from a response that is ok.
    When the download of a call in flight ends with a status outside 200
    to 299, or without a response, the promise is rejected and the map
    stays as it is; with a status from 200 to 299 and a body, the record
    of the map has that body as its [css]. *)
Theorem remote_theme_needs_ok_response (w : World) (promise : nat)
    (p : Pending) (d : Download) :
  inFlight w !! promise = Some p ->
  let w' := fetchDone promise (fetch d) w in
  match d with
  | Responded status (Some text) =>
      if responseOk status then
        exists t, observedThemes w' !! pendingPath p = Some t /\ css t = text
      else
        settled w' !! promise = Some Rejected
        /\ observedThemes w' = observedThemes w
  | _ =>
      settled w' !! promise = Some Rejected
      /\ observedThemes w' = observedThemes w
  end.
Proof.
  intros Hp. cbv zeta.
  assert (Hrejected :
    settled (fetchDone promise None w) !! promise = Some Rejected
    /\ observedThemes (fetchDone promise None w) = observedThemes w).
  { rewrite (fetchDone_rejected _ _ _ Hp).
    destruct (settle_spec promise (pendingThen p) Rejected
                (setInFlight (delete promise (inFlight w)) w))
      as (_ & Hmap & _ & _ & _ & Hsettled & _).
    rewrite Hmap, Hsettled. split; [apply lookup_insert_eq|reflexivity]. }
  destruct d as [status [text|]|]; cbn [fetch];
    try destruct (responseOk status); try exact Hrejected.
  rewrite (fetchDone_fulfilled _ _ _ _ Hp).
  destruct (registerTheme_resume_spec promise p text
              (setInFlight (delete promise (inFlight w)) w))
    as (t & Hmap & Hcss & _).
  exists t. rewrite Hmap. by rewrite lookup_insert_eq.
Qed.

End DownloadFacts.

(** ** The theme set of a document *)

Section ThemeSetFacts.
Context `{Host}.
Variable getWorkspaceFolder : Uri -> option Uri.
Variable ThemeSet : Type.
Variable themeSetAdd : ThemeSet -> string -> option ThemeSet.

Lemma getRegisteredStyles_loadStyles (rootUri rootUri' : option Uri)
    (w : World) :
  getRegisteredStyles rootUri' (loadStyles rootUri w)
  = getRegisteredStyles rootUri' w.
Proof.
  unfold loadStyles.
  destruct (registerTheme_calls_spec (getPathsFromConf rootUri w) w)
    as (Hconf & Hmap & _).
  unfold getRegisteredStyles.
  by rewrite (getPathsFromConf_setting _ _ _ Hconf), Hmap.
Qed.

(** X16. A style sheet that the rendering engine does not accept is
    passed over: the theme set is the one built from the other themes, in
    their order.  And the theme set sees only what is registered: themes
    whose load has merely started change nothing. *)
Theorem getMarpThemeSetFor_skips_rejected (fresh : ThemeSet)
    (before after : list Theme) (bad : Theme) :
  (forall themeSet, themeSetAdd themeSet (css bad) = None) ->
  fold_left (addTheme ThemeSet themeSetAdd) (before ++ bad :: after) fresh
  = fold_left (addTheme ThemeSet themeSetAdd) (before ++ after) fresh
  /\ forall doc rootUri w,
       getMarpThemeSetFor getWorkspaceFolder ThemeSet themeSetAdd fresh doc
         (loadStyles rootUri w)
       = getMarpThemeSetFor getWorkspaceFolder ThemeSet themeSetAdd fresh
           doc w.
Proof.
  intros Hbad. split.
  - rewrite !fold_left_app. cbn [fold_left].
    unfold addTheme at 2. by rewrite Hbad.
  - intros doc rootUri w. unfold getMarpThemeSetFor.
    by rewrite getRegisteredStyles_loadStyles.
Qed.

End ThemeSetFacts.

(** ** Two reads of one key *)

Section TwoReads.
Context `{Host}.

(** X7. When two calls for one key are in flight and both reads
    succeed, the map ends with the record of the read that completed
    last, whichever call was made first; the two subscriptions of the
    record it replaced stay live, and no record of the map holds them any
    more, so neither a later event of theirs nor [dispose] releases them
    together with a record. *)
Theorem second_read_replaces_first (w : World) (first second : nat)
    (k1 k2 : Continuation) (themePath content1 content2 : string)
    (pat : RelativePattern) :
  reachable w ->
  first ≠ second ->
  inFlight w !! first
  = Some (mkPending themePath (themeTypeOf themePath) k1) ->
  inFlight w !! second
  = Some (mkPending themePath (themeTypeOf themePath) k2) ->
  watcherPatternOf (themeTypeOf themePath) themePath = Some pat ->
  let change := nextDisposable w in
  let w1 := fetchDone first (Some content1) w in
  let w2 := fetchDone second (Some content2) w1 in
  observedThemes w1 !! themePath
  = Some (mkTheme content1 (Some change) (Some (S change)) themePath None
            (themeTypeOf themePath))
  /\ observedThemes w2 !! themePath
     = Some (mkTheme content2 (Some (S (S change)))
               (Some (S (S (S change)))) themePath None
               (themeTypeOf themePath))
  /\ listeners w2 !! change = Some (mkListener Change pat themePath)
  /\ listeners w2 !! S change = Some (mkListener Delete pat themePath)
  /\ ~ heldBy (observedThemes w2) change
  /\ ~ heldBy (observedThemes w2) (S change).
Proof.
  intros (HR & _)%reachable_consistent Hne H1 H2 Hpat. cbv zeta.
  assert (Hstep : forall (w0 : World) promise k content,
    inFlight w0 !! promise
    = Some (mkPending themePath (themeTypeOf themePath) k) ->
    let w' := fetchDone promise (Some content) w0 in
    observedThemes w'
    = <[themePath :=
          mkTheme content (Some (nextDisposable w0))
            (Some (S (nextDisposable w0))) themePath None
            (themeTypeOf themePath)]> (observedThemes w0)
    /\ listeners w'
       = <[S (nextDisposable w0) := mkListener Delete pat themePath]>
           (<[nextDisposable w0 := mkListener Change pat themePath]>
              (listeners w0))
    /\ nextDisposable w' = S (S (nextDisposable w0))
    /\ inFlight w' = delete promise (inFlight w0)).
  { intros w0 promise k content Hp. cbv zeta.
    rewrite (fetchDone_fulfilled _ _ _ _ Hp). unfold registerTheme_resume.
    cbn [pendingPath pendingType pendingThen]. rewrite Hpat.
    destruct k; cbn; by repeat split. }
  destruct (Hstep w first k1 content1 H1) as (Hmap1 & Hls1 & Hnd1 & Hfly1).
  set (w1 := fetchDone first (Some content1) w) in *.
  assert (H2' : inFlight w1 !! second
                = Some (mkPending themePath (themeTypeOf themePath) k2))
    by (rewrite Hfly1, lookup_delete_ne; done).
  destruct (Hstep w1 second k2 content2 H2') as (Hmap2 & Hls2 & Hnd2 & _).
  set (w2 := fetchDone second (Some content2) w1) in *.
  assert (Hold : forall d, (d = nextDisposable w \/ d = S (nextDisposable w))
                           -> ~ heldBy (observedThemes w2) d).
  { intros d Hd (k & t & Hk & Hheld). rewrite Hmap2 in Hk.
    destruct (decide (themePath = k)) as [<-|Hk'].
    - rewrite lookup_insert_eq in Hk. injection Hk as <-.
      cbn in Hheld. rewrite Hnd1 in Hheld.
      destruct Hd as [Hd|Hd], Hheld as [[= Hc]|[= Hc]];
        unfold Disposable in *; lia.
    - rewrite lookup_insert_ne, Hmap1, lookup_insert_ne in Hk by done.
      destruct (HR k t Hk) as (_ & _ & _ & Hdel & _ & Hbound).
      destruct (onDidChange t) as [c|]; cbn in Hdel; rewrite Hdel in Hheld.
      + specialize (Hbound c eq_refl).
        destruct Hd as [Hd|Hd], Hheld as [[= Hc]|[= Hc]];
          unfold Disposable in *; lia.
      + by destruct Hheld. }
  split; [by rewrite Hmap1, lookup_insert_eq|].
  split; [by rewrite Hmap2, lookup_insert_eq, Hnd1|].
  rewrite Hls2, Hls1, Hnd1.
  split; [|split; [|split; apply Hold; tauto]].
  - rewrite !lookup_insert_ne by (unfold Disposable; lia).
    apply lookup_insert_eq.
  - rewrite !lookup_insert_ne by (unfold Disposable; lia).
    apply lookup_insert_eq.
Qed.

End TwoReads.

(** ** Keys and what is registered under them *)

Section KeysMore.
Context `{Host}.

Lemma paths_of_registered (m : gmap string Theme) (keys : list string) :
  (forall k t, m !! k = Some t -> path t = k) ->
  path <$> omap (fun p => m !! p) keys = filter (fun k => k ∈ dom m) keys.
Proof.
  intros Hpath. induction keys as [|k keys IH]; [reflexivity|].
  rewrite filter_cons. cbn [omap list_omap].
  destruct (m !! k) as [t|] eqn:Hk.
  - destruct (decide (k ∈ dom m)) as [_|Hout].
    + rewrite fmap_cons, (Hpath k t Hk). f_equal. exact IH.
    + destruct Hout. apply elem_of_dom. by eexists.
  - destruct (decide (k ∈ dom m)) as [Hin|_]; [|exact IH].
    apply elem_of_dom in Hin as [t Ht]. congruence.
Qed.

(** X8. In every reachable world [getRegisteredStyles] returns the
    records of the configured keys that are registered, one for each such
    key and in the order of the keys: the paths of the themes it returns
    are the keys of the setting that the map holds. *)
Theorem getRegisteredStyles_follows_keys (rootUri : option Uri) (w : World) :
  reachable w ->
  path <$> getRegisteredStyles rootUri w
  = filter (fun k => k ∈ dom (observedThemes w)) (getPathsFromConf rootUri w)
  /\ NoDup (path <$> getRegisteredStyles rootUri w).
Proof.
  intros (HR & _)%reachable_consistent.
  assert (Hpaths :
    path <$> getRegisteredStyles rootUri w
    = filter (fun k => k ∈ dom (observedThemes w))
        (getPathsFromConf rootUri w)).
  { apply paths_of_registered. intros k t Hk. by destruct (HR k t Hk). }
  split; [exact Hpaths|].
  rewrite Hpaths. apply NoDup_filter, NoDup_getPathsFromConf.
Qed.

Lemma themeTypeOf_absolute (segs : list string) :
  themeTypeOf (Path.ofSegments segs) = File.
Proof. reflexivity. Qed.

(** X12. With a base of scheme [file] every key of [normalizePaths] is
    either a remote reference, which [registerTheme] types [Remote], or an
    absolute path, which it types [File] and never [VirtualFS]; so the
    record of such a path is always resolved by a local read and watched. *)
Theorem file_base_keys_are_local_or_remote (paths : list ConfEntry)
    (rootUri : Uri) (key : string) :
  scheme rootUri = "file" ->
  key ∈ normalizePaths paths (Some rootUri) ->
  (isRemotePath key = true /\ themeTypeOf key = Remote)
  \/ (Path.isAbsolute key = true /\ themeTypeOf key = File
      /\ is_Some (watcherPatternOf (themeTypeOf key) key)).
Proof.
  intros Hfile Hkey. unfold normalizePaths in Hkey.
  apply normalizePaths_file_acc in Hkey as [Hnil|(p & _ & Horigin)];
    [by apply elem_of_nil in Hnil| |exact Hfile].
  destruct Horigin as [[Hremote ->]|(_ & -> & _)].
  - left. split; [exact Hremote|]. unfold themeTypeOf. by rewrite Hremote.
  - right. unfold Path.resolve.
    rewrite isAbsolute_ofSegments, themeTypeOf_absolute.
    repeat split. by eexists.
Qed.

End KeysMore.

(** ** The claims on a concrete workspace *)

#[local] Existing Instance exampleHost.

Lemma reachable_registeredWorld : reachable registeredWorld.
Proof.
  exists exampleThemes, [LoadStyles exampleRoot; FetchDone 0 (Some "a")].
  reflexivity.
Defined.

Lemma normalizePaths_example :
  normalizePaths
    [CString "theme.css"; CString "./theme.css"; CString "sub/../theme.css";
     COther; CString "https://example.com/t.css"; CString "../outside.css";
     CString "/ws/dir/b.css"; CString "/wsx/b.css"]
    exampleRoot
  = ["/ws/theme.css"; "https://example.com/t.css"; "/ws/dir/b.css"].
Proof. reflexivity. Qed.

Lemma normalizePaths_traversal_guard_witness :
  scheme (fileUri "/workspace/project") = "file"
  /\ normalizePaths [CString "../../etc/passwd"]
       (Some (fileUri "/workspace/project")) = [].
Proof.
  split; [reflexivity|].
  exact (proj2 (normalizePaths_traversal_guard
                  [CString "themes/a.css"; CString "../../etc/passwd"]
                  (fileUri "/workspace/project") eq_refl)).
Defined.

(** C3 fails on a Windows host.  The guard of [normalizePaths] looks for
    two dots at the start of [path.relative(base, resolvedPath)]; for a
    path on another drive [path.relative] answers with the path itself,
    which starts with the drive letter, so the guard lets it pass.  With
    the workspace folder [c:\ws] the reference [D:\themes\a.css]
    becomes a key though it is not within the folder, while a reference
    that climbs out of the folder on the same drive is dropped. *)
Theorem windows_other_drive_passes_guard :
  let rootUri := fileUri "/c:/ws" in
  let platform := windows "c" ["ws"] in
  let base := platformFsPath platform rootUri in
  let resolvedPath := platformResolve platform base "D:\themes\a.css" in
  scheme rootUri = "file"
  /\ isRemotePath "D:\themes\a.css" = false
  /\ base = "c:\ws"
  /\ resolvedPath = "D:\themes\a.css"
  /\ platformRelative platform base resolvedPath = "D:\themes\a.css"
  /\ Js.startsWith (platformRelative platform base resolvedPath) ".." = false
  /\ Win32.within "c" ["ws"] base resolvedPath = false
  /\ normalizePathsOn platform [CString "D:\themes\a.css"] (Some rootUri)
     = ["D:\themes\a.css"]
  /\ normalizePathsOn platform [CString "..\..\etc\passwd"] (Some rootUri)
     = [].
Proof. vm_compute. repeat split. Qed.

(** C1 fails on the code: two requests for the key [/ws/theme.css], both
    made while it is not registered and before any read has completed,
    start two reads, and the two callers are answered with different
    themes when the file changes between the reads. *)
Lemma concurrent_requests_read_twice :
  let w0 := emptyWorld exampleThemes in
  let w2 := run w0 [LoadStyles exampleRoot; LoadStyles exampleRoot] in
  let w4 := run w2 [FetchDone 0 (Some "a"); FetchDone 1 (Some "b")] in
  observedThemes w0 !! exampleKey = None
  /\ inFlight w2 !! 0 = Some (mkPending exampleKey File ToCaller)
  /\ inFlight w2 !! 1 = Some (mkPending exampleKey File ToCaller)
  /\ fetchLog w2 = [(File, exampleKey); (File, exampleKey)]
  /\ settled w4 !! 0
     = Some (Fulfilled
               (mkTheme "a" (Some 0) (Some 1) exampleKey (Some true) File))
  /\ settled w4 !! 1
     = Some (Fulfilled
               (mkTheme "b" (Some 2) (Some 3) exampleKey (Some true) File)).
Proof. vm_compute. repeat split. Qed.

Lemma registerTheme_reads_per_request_witness :
  observedThemes (emptyWorld exampleThemes) !! exampleKey = None
  /\ fetchLog
       (Nat.iter 3 (registerTheme_call ToCaller exampleKey)
          (emptyWorld exampleThemes))
     = [] ++ replicate 3 (themeTypeOf exampleKey, exampleKey).
Proof.
  split; [reflexivity|].
  exact (proj1 (registerTheme_reads_per_request (emptyWorld exampleThemes)
                  exampleKey 3 eq_refl)).
Defined.


(** The gap of C2 can also close early: a [loadStyles] in the gap starts a
    read of its own, and when that read succeeds the key has a record
    again while the read of the change listener is still in flight. *)
Lemma record_returns_before_reread_completes :
  let w := run registeredWorld
             [Fire Change 0; LoadStyles exampleRoot; FetchDone 2 (Some "c")] in
  observedThemes w !! exampleKey
  = Some (mkTheme "c" (Some 2) (Some 3) exampleKey None File)
  /\ inFlight w !! 1 = Some (mkPending exampleKey File ThenRefresh).
Proof. vm_compute. repeat split. Qed.


(** C5 fails on the code: the record in the map has no [registered]
    mark; the mark is on the theme the call returned. *)
Lemma stored_record_is_not_marked :
  observedThemes registeredWorld !! exampleKey
  = Some (mkTheme "a" (Some 0) (Some 1) exampleKey None File)
  /\ registered <$> observedThemes registeredWorld !! exampleKey = Some None
  /\ settled registeredWorld !! 0
     = Some (Fulfilled
               (mkTheme "a" (Some 0) (Some 1) exampleKey (Some true) File)).
Proof. vm_compute. repeat split. Qed.

Lemma resolution_stores_unmarked_record_witness :
  let w := loadStyles exampleRoot (emptyWorld exampleThemes) in
  inFlight w !! 0 = Some (mkPending exampleKey File ToCaller)
  /\ exists t,
       observedThemes (fetchDone 0 (Some "a") w) !! exampleKey = Some t
       /\ registered t = None
       /\ settled (fetchDone 0 (Some "a") w) !! 0
          = Some (Fulfilled (markRegistered t)).
Proof.
  split; [reflexivity|].
  destruct (resolution_stores_unmarked_record
              (loadStyles exampleRoot (emptyWorld exampleThemes)) 0
              (mkPending exampleKey File ToCaller) "a" eq_refl)
    as (t & Hstored & _ & _ & _ & Hreg & Hsettled & _).
  exists t. exact (conj Hstored (conj Hreg Hsettled)).
Defined.

(** C6 fails on the code.  After the change event of a registered theme
    the record has left the map but its delete subscription (1) is still
    live; after its delete event the change subscription (0) is still
    live; and [dispose], which releases what the records in the map hold,
    does not reach the subscription that was left behind. *)
Lemma handlers_leave_sibling_subscription :
  let changed := exec registeredWorld (Fire Change 0) in
  let deleted := exec registeredWorld (Fire Delete 1) in
  let disposed := run changed [FetchDone 1 (Some "b"); Dispose] in
  observedThemes registeredWorld !! exampleKey
  = Some (mkTheme "a" (Some 0) (Some 1) exampleKey None File)
  /\ observedThemes changed !! exampleKey = None
  /\ listeners changed !! 1
     = Some (mkListener Delete examplePattern exampleKey)
  /\ observedThemes deleted !! exampleKey = None
  /\ listeners deleted !! 0
     = Some (mkListener Change examplePattern exampleKey)
  /\ observedThemes disposed = ∅
  /\ listeners disposed
     = {[ 1 := mkListener Delete examplePattern exampleKey ]}.
Proof. vm_compute. repeat split. Qed.



Lemma one_record_per_key_witness :
  "theme.css" ≠ "./theme.css"
  /\ normalizePaths [CString "theme.css"] exampleRoot = [exampleKey]
  /\ normalizePaths [CString "./theme.css"] exampleRoot = [exampleKey]
  /\ normalizePaths [CString "theme.css"; CString "./theme.css"] exampleRoot
     = [exampleKey].
Proof.
  assert (Hne : "theme.css" ≠ "./theme.css") by discriminate.
  split; [exact Hne|]. repeat (split; [reflexivity|]).
  exact (proj1 (proj2 (one_record_per_key exampleRoot "theme.css"
                         "./theme.css" exampleKey Hne eq_refl eq_refl))).
Defined.

Lemma handleGet_ok_or_not_found_witness :
  let root := fileUri "/ws" in
  status (handleGet exampleFs root (mkUrl "/style.css" "" "")) = 200%Z
  /\ body (handleGet exampleFs root (mkUrl "/style.css" "" ""))
     = Buffer [Byte.x61; Byte.x7b; Byte.x7d]
  /\ status (handleGet exampleFs root (mkUrl "/missing.css" "" "")) = 404%Z
  /\ handleGet exampleFs root (mkUrl "/broken.css" "" "")
     = mkResponse {[ "Content-Type" := "text/css; charset=utf-8" ]} 404
         (Text "Not found").
Proof.
  cbv zeta.
  pose proof (handleGet_ok_or_not_found exampleFs (fileUri "/ws")
                (mkUrl "/style.css" "" "")) as [Hok _].
  pose proof (handleGet_ok_or_not_found exampleFs (fileUri "/ws")
                (mkUrl "/missing.css" "" "")) as [_ Hmissing].
  destruct (Hok _ _ eq_refl eq_refl eq_refl) as (Hstatus & Hbody & _).
  destruct (Hmissing _ eq_refl) as (Hstatus' & _).
  split; [exact Hstatus|]. split; [exact Hbody|].
  split; [exact Hstatus'|]. reflexivity.
Defined.

Lemma handleGet_directory_witness :
  let response := handleGet exampleFs (fileUri "/ws") (mkUrl "/assets" "" "") in
  fsStat exampleFs (vscodeUriOf (fileUri "/ws") (mkUrl "/assets" "" ""))
  = inl (mkFileStat FileType_Directory 0 2000 4096)
  /\ Z.land FileType_Directory FileType_Directory <> 0%Z
  /\ status response = 404%Z
  /\ body response = Text "Not found"
  /\ headers response !! "Content-Length" = Some "4096"
  /\ headers response !! "Last-Modified"
     = Some "Thu, 01 Jan 1970 00:00:02 GMT".
Proof.
  assert (Hdir : Z.land FileType_Directory FileType_Directory <> 0%Z)
    by discriminate.
  cbv zeta. split; [reflexivity|]. split; [exact Hdir|].
  exact (handleGet_directory exampleFs (fileUri "/ws")
           (mkUrl "/assets" "" "")
           (mkFileStat FileType_Directory 0 2000 4096) eq_refl Hdir).
Defined.

(** ** Further properties on the concrete workspace *)

Lemma failed_read_is_contained_witness :
  let w := loadStyles exampleRoot (emptyWorld exampleThemes) in
  inFlight w !! 0 = Some (mkPending exampleKey File ToCaller)
  /\ settled (fetchDone 0 None w) !! 0 = Some Rejected.
Proof.
  split; [reflexivity|].
  exact (proj1 (failed_read_is_contained
                  (loadStyles exampleRoot (emptyWorld exampleThemes)) 0
                  (mkPending exampleKey File ToCaller) eq_refl)).
Defined.

Lemma remote_theme_is_never_watched_witness :
  let url := "https://example.com/t.css" in
  let w := registerTheme_call ToCaller url (emptyWorld None) in
  isRemotePath url = true
  /\ isVirtualPath url = true
  /\ inFlight w !! 0 = Some (mkPending url (themeTypeOf url) ToCaller)
  /\ themeTypeOf url = Remote
  /\ listeners (fetchDone 0 (Some "a") w) = listeners w.
Proof.
  cbv zeta. repeat (split; [reflexivity|]).
  pose proof (remote_theme_is_never_watched
                (registerTheme_call ToCaller "https://example.com/t.css"
                   (emptyWorld None))
                0 "https://example.com/t.css" "a" ToCaller eq_refl eq_refl)
    as (_ & Hls & _).
  exact Hls.
Defined.

Lemma dispose_does_not_cancel_reads_witness :
  let w := loadStyles exampleRoot (emptyWorld exampleThemes) in
  inFlight w !! 0 = Some (mkPending exampleKey File ToCaller)
  /\ exists t,
       observedThemes (fetchDone 0 (Some "a") (dispose w))
       = {[ exampleKey := t ]}
       /\ css t = "a".
Proof.
  split; [reflexivity|].
  destruct (dispose_does_not_cancel_reads
              (loadStyles exampleRoot (emptyWorld exampleThemes)) 0
              (mkPending exampleKey File ToCaller) "a" eq_refl)
    as (t & Hmap & Hcss & _).
  exists t. exact (conj Hmap Hcss).
Defined.

Lemma reachable_records_witness :
  reachable registeredWorld
  /\ observedThemes registeredWorld !! exampleKey
     = Some (mkTheme "a" (Some 0) (Some 1) exampleKey None File)
  /\ path (mkTheme "a" (Some 0) (Some 1) exampleKey None File) = exampleKey.
Proof.
  split; [exact reachable_registeredWorld|]. split; [reflexivity|].
  exact (proj1 (reachable_records registeredWorld exampleKey
                  (mkTheme "a" (Some 0) (Some 1) exampleKey None File)
                  reachable_registeredWorld eq_refl)).
Defined.

Lemma reachable_promises_witness :
  reachable registeredWorld
  /\ ~ (is_Some (inFlight registeredWorld !! 0)
        /\ is_Some (settled registeredWorld !! 0)).
Proof.
  split; [exact reachable_registeredWorld|].
  exact (proj2 (reachable_promises registeredWorld 0
                  reachable_registeredWorld)).
Defined.

Lemma reachable_listeners_witness :
  reachable registeredWorld
  /\ listeners registeredWorld !! nextDisposable registeredWorld = None.
Proof.
  split; [exact reachable_registeredWorld|].
  exact (proj1 (proj2 (reachable_listeners registeredWorld
                         reachable_registeredWorld))).
Defined.

Lemma normalizePaths_two_dots_name :
  normalizePaths [CString "..theme.css"; CString "themes/..draft.css"]
    exampleRoot
  = ["/ws/themes/..draft.css"].
Proof. reflexivity. Qed.

Lemma normalizePaths_file_exact_witness :
  scheme (fileUri "/ws") = "file"
  /\ exampleKey ∈ normalizePaths [CString "theme.css"] (Some (fileUri "/ws")).
Proof.
  split; [reflexivity|].
  apply (proj2 (normalizePaths_file_exact [CString "theme.css"]
                  (fileUri "/ws") exampleKey eq_refl)).
  exists "theme.css". split; [left|]. right.
  split; [reflexivity|]. split; [reflexivity|].
  exists ["theme.css"]. split; reflexivity.
Defined.

Lemma remote_references_need_no_base_witness :
  CString "https://example.com/t.css"
    ∈ [CString "theme.css"; CString "https://example.com/t.css"]
  /\ isRemotePath "https://example.com/t.css" = true
  /\ "https://example.com/t.css"
       ∈ normalizePaths
           [CString "theme.css"; CString "https://example.com/t.css"] None
  /\ normalizePaths [CString "theme.css"] None = [].
Proof.
  assert (Hin : CString "https://example.com/t.css"
                  ∈ [CString "theme.css";
                     CString "https://example.com/t.css"])
    by (right; left).
  split; [exact Hin|]. split; [reflexivity|]. split.
  - exact (proj1 (remote_references_need_no_base
                    [CString "theme.css";
                     CString "https://example.com/t.css"])
             None _ Hin eq_refl).
  - apply (proj2 (proj2 (remote_references_need_no_base
                           [CString "theme.css"]))).
    intros p [[= ->]|Hp]%elem_of_cons; [reflexivity|].
    by apply elem_of_nil in Hp.
Defined.

Lemma normalizePaths_ignores_repeats_witness :
  (forall e, e ∈ [COther; CString "theme.css"] ->
             e ∈ [CString "theme.css"] \/ e = COther)
  /\ normalizePaths ([CString "theme.css"] ++ [COther; CString "theme.css"])
       exampleRoot
     = normalizePaths [CString "theme.css"] exampleRoot.
Proof.
  assert (Hagain : forall e, e ∈ [COther; CString "theme.css"] ->
                             e ∈ [CString "theme.css"] \/ e = COther).
  { intros e [->|He]%elem_of_cons; [by right|]. by left. }
  split; [exact Hagain|].
  exact (normalizePaths_ignores_repeats [CString "theme.css"]
           [COther; CString "theme.css"] exampleRoot Hagain).
Defined.

Lemma getSizePresets_untrimmed_witness :
  Js.isSpace " " = true
  /\ ("a" ≠ "" ->
      mapGet "a" (sizesOf (["a 4 3"] ++ [String " " "a 16 9"]))
      = mapGet "a" (sizesOf ["a 4 3"]))
  /\ (mapGet "a" (sizesOf (["a 4 3"] ++ ["a false" +:+ String " " ""]))
      = mapGet "a" (sizesOf ["a 4 3"])
      \/ exists width,
           mapGet "a" (sizesOf (["a 4 3"] ++ ["a false" +:+ String " " ""]))
           = Some (mkSizePreset "" "a" width)).
Proof.
  split; [reflexivity|].
  split.
  - exact (proj1 (getSizePresets_untrimmed ["a 4 3"] " " "a 16 9" "a"
                    eq_refl)).
  - exact (proj2 (getSizePresets_untrimmed ["a 4 3"] " " "a false" "a"
                    eq_refl)).
Defined.

(** The line [a false] followed by a blank has three tokens: it removes
    nothing and defines the preset [a] anew, with the width [false] and
    an empty height. *)
Lemma getSizePresets_trailing_blank :
  getSizePresets (Some ["a 4 3"; "a false "])
  = [mkSizePreset "" "a" "false"]
  /\ getSizePresets (Some ["a 4 3"; "a false"]) = [].
Proof. vm_compute. repeat split. Qed.

Lemma handleRequest_status_exact_witness :
  let handle := handleRequest exampleParseUrl exampleFs (fileUri "/ws") in
  handle "//" "localhost" = None
  /\ handle "/.//etc" "localhost" = None
  /\ (status <$> handle "/style.css" "localhost") = Some 200%Z
  /\ (handle "/assets" "localhost" = None <->
      exampleParseUrl "/assets" "http://localhost" = None
      \/ exists url,
           exampleParseUrl "/assets" "http://localhost" = Some url
           /\ uriWithThrows (vscodeUriOf (fileUri "/ws") url) = true).
Proof.
  cbv zeta. do 3 (split; [reflexivity|]).
  exact (proj1 (handleRequest_status_exact exampleParseUrl exampleFs
                  (fileUri "/ws") "/assets" "localhost")).
Defined.

Lemma handleGet_ignores_folder_path_witness :
  scheme (fileUri "/ws") = scheme (fileUri "/home/other")
  /\ authority (fileUri "/ws") = authority (fileUri "/home/other")
  /\ handleGet exampleFs (fileUri "/ws") (mkUrl "/style.css" "" "")
     = handleGet exampleFs (fileUri "/home/other") (mkUrl "/style.css" "" "").
Proof.
  repeat (split; [reflexivity|]).
  exact (proj2 (handleGet_ignores_folder_path exampleFs (fileUri "/ws")
                  (fileUri "/home/other") (mkUrl "/style.css" "" "")
                  eq_refl eq_refl)).
Defined.

Lemma remote_theme_needs_ok_response_witness :
  let url := "https://example.com/t.css" in
  let w := registerTheme_call ToCaller url (emptyWorld None) in
  inFlight w !! 0 = Some (mkPending url Remote ToCaller)
  /\ settled (fetchDone 0 (fetch (Responded 404 (Some "Not Found"))) w) !! 0
     = Some Rejected
  /\ observedThemes (fetchDone 0 (fetch (Responded 404 (Some "Not Found"))) w)
     = observedThemes w.
Proof.
  cbv zeta. split; [reflexivity|].
  exact (remote_theme_needs_ok_response
           (registerTheme_call ToCaller "https://example.com/t.css"
              (emptyWorld None))
           0 (mkPending "https://example.com/t.css" Remote ToCaller)
           (Responded 404 (Some "Not Found")) eq_refl).
Defined.

(** An engine that keeps the style sheets it was given and accepts every
    one that is not empty. *)
Lemma getMarpThemeSetFor_skips_rejected_witness :
  let add (themeSet : list string) (sheet : string) :=
    if decide (sheet = "") then None else Some (themeSet ++ [sheet]) in
  let theme sheet := mkTheme sheet None None "" None File in
  (forall themeSet, add themeSet (css (theme "")) = None)
  /\ fold_left (addTheme (list string) add)
       ([theme "a"] ++ theme "" :: [theme "b"]) []
     = fold_left (addTheme (list string) add) ([theme "a"] ++ [theme "b"]) [].
Proof.
  cbv zeta. split; [reflexivity|].
  exact (proj1 (getMarpThemeSetFor_skips_rejected (fun _ => None)
                  (list string)
                  (fun themeSet sheet =>
                     if decide (sheet = "") then None
                     else Some (themeSet ++ [sheet]))
                  [] [mkTheme "a" None None "" None File]
                  [mkTheme "b" None None "" None File]
                  (mkTheme "" None None "" None File)
                  (fun _ => eq_refl))).
Defined.

Lemma second_read_replaces_first_witness :
  let w :=
    run (emptyWorld exampleThemes)
      [LoadStyles exampleRoot; LoadStyles exampleRoot] in
  let w2 := fetchDone 1 (Some "b") (fetchDone 0 (Some "a") w) in
  reachable w
  /\ 0 ≠ 1
  /\ inFlight w !! 0 = Some (mkPending exampleKey File ToCaller)
  /\ inFlight w !! 1 = Some (mkPending exampleKey File ToCaller)
  /\ watcherPatternOf File exampleKey = Some examplePattern
  /\ observedThemes w2 !! exampleKey
     = Some (mkTheme "b" (Some 2) (Some 3) exampleKey None File)
  /\ listeners w2 !! 0 = Some (mkListener Change examplePattern exampleKey).
Proof.
  cbv zeta.
  assert (Hreach : reachable
            (run (emptyWorld exampleThemes)
               [LoadStyles exampleRoot; LoadStyles exampleRoot]))
    by (by eexists _, _).
  assert (Hne : 0 ≠ 1) by discriminate.
  split; [exact Hreach|]. split; [exact Hne|].
  do 3 (split; [reflexivity|]).
  destruct (second_read_replaces_first
              (run (emptyWorld exampleThemes)
                 [LoadStyles exampleRoot; LoadStyles exampleRoot])
              0 1 ToCaller ToCaller exampleKey "a" "b" examplePattern
              Hreach Hne eq_refl eq_refl eq_refl)
    as (_ & Hmap & Hls & _).
  exact (conj Hmap Hls).
Defined.

Lemma getRegisteredStyles_follows_keys_witness :
  reachable registeredWorld
  /\ path <$> getRegisteredStyles exampleRoot registeredWorld
     = filter (fun k => k ∈ dom (observedThemes registeredWorld))
         (getPathsFromConf exampleRoot registeredWorld).
Proof.
  split; [exact reachable_registeredWorld|].
  exact (proj1 (getRegisteredStyles_follows_keys exampleRoot registeredWorld
                  reachable_registeredWorld)).
Defined.

Lemma file_base_keys_are_local_or_remote_witness :
  scheme (fileUri "/ws") = "file"
  /\ exampleKey ∈ normalizePaths [CString "theme.css"] (Some (fileUri "/ws"))
  /\ ((isRemotePath exampleKey = true /\ themeTypeOf exampleKey = Remote)
      \/ (Path.isAbsolute exampleKey = true /\ themeTypeOf exampleKey = File
          /\ is_Some (watcherPatternOf (themeTypeOf exampleKey) exampleKey))).
Proof.
  assert (Hin : exampleKey
                  ∈ normalizePaths [CString "theme.css"]
                      (Some (fileUri "/ws"))) by left.
  split; [reflexivity|]. split; [exact Hin|].
  exact (file_base_keys_are_local_or_remote [CString "theme.css"]
           (fileUri "/ws") exampleKey eq_refl Hin).
Defined.
